(** * Shallow embedding of the dragonfire-engine Vulkan renderer

    The orchestrator ([Engine] in crates/rendering/src/vulkan/engine.rs),
    its render worker loop ([render_thread]), the presentation loop, the
    resource builders ([Mesh::new], [Texture::new]), the pipeline cache
    ([create_pipeline], [load_cache], [cleanup_cache]), the swapchain image
    count selection ([create_swapchain]) and the teardown ([Drop for Engine]).

    GPU handles are modelled by what the code compares or records: pointer
    addresses for meshes and materials, (frame slot, worker index) for
    secondary command buffers, and lists of device calls for command
    recording.  Calls that may panic or block forever return [None]. *)

From Stdlib Require Import List Arith NArith Lia Bool Sorting.Sorted.
Import ListNotations.

(** ** Generic list helpers (Rust [Vec]/[SmallVec] indexing) *)

(** [v[i] = x] on an in-range index; Rust panics out of range, callers
    check the index with [nth_error] first. *)
Fixpoint set_nth {A} (i : nat) (x : A) (l : list A) : list A :=
  match l, i with
  | [], _ => []
  | _ :: t, O => x :: t
  | h :: t, S i' => h :: set_nth i' x t
  end.

(** Append one message to the channel with index [i]. *)
Fixpoint send_at {A} (i : nat) (x : A) (chs : list (list A)) : list (list A) :=
  match chs, i with
  | [], _ => []
  | c :: t, O => (c ++ [x]) :: t
  | c :: t, S i' => c :: send_at i' x t
  end.

(** [for (index, channel) in channels.iter().enumerate() { channel.send(f index) }] *)
Fixpoint send_each_from {A} (index : nat) (f : nat -> A) (chs : list (list A))
  : list (list A) :=
  match chs with
  | [] => []
  | c :: t => (c ++ [f index]) :: send_each_from (S index) f t
  end.

Definition send_each {A} (f : nat -> A) (chs : list (list A)) := send_each_from 0 f chs.

Definition obind {A B} (o : option A) (f : A -> option B) : option B :=
  match o with Some a => f a | None => None end.

Module Engine.

Definition FRAMES_IN_FLIGHT : nat := 2.

(** Addresses of [Arc<Mesh>] / [Arc<Material>] contents; [std::ptr::null()]
    is [None].  An [Arc] never points to null. *)
Definition addr := nat.

(** The parts of a [Mesh] and a [Material] that the render path reads:
    their address (identity) and [get_index_count()]. *)
Record Mesh := mkMesh { mesh_addr : addr; index_count : nat }.
Record Material := mkMaterial { material_addr : addr }.

(** [Matrix4<f32>] transforms are opaque values. *)
Definition Matrix4 := nat.

(** [frame.secondary_buffers[index]] of frame slot [cb_frame]. *)
Record CommandBuffer := mkCB { cb_frame : nat; cb_index : nat }.

(** [RenderCommand]; [Begin] keeps the secondary buffer and the frame's
    global descriptor set (the frame slot), the camera matrices and the
    formats are not compared by anything and are left out. *)
Inductive RenderCommand :=
| Begin (cmd : CommandBuffer) (desc : nat)
| Render (mesh : Mesh) (material : Material) (transform : Matrix4)
| End.

Inductive RenderResult := NotDone | ROk | OutOfDate.

Definition RenderResult_eqb (a b : RenderResult) : bool :=
  match a, b with
  | NotDone, NotDone | ROk, ROk | OutOfDate, OutOfDate => true
  | _, _ => false
  end.

Inductive VkError := SUBOPTIMAL_KHR | ERROR_OUT_OF_DATE_KHR | OTHER_ERROR.

(** Result of [swapchain.next(..)]: [Ok(suboptimal)] (with the acquired
    image index) or [Err(e)]. *)
Inductive AcquireResult :=
| AcquireOk (image_index : nat) (suboptimal : bool)
| AcquireErr (e : VkError).

(** [PresentData]: the frame slot whose fence/semaphores/command buffer and
    [sync_data] are handed over, and the acquired image index. *)
Record PresentData := mkPD { pd_slot : nat; pd_image_index : nat }.

(** The orchestrator state.  [render_channels] holds, per worker channel,
    every message sent on it so far (oldest first); [sync_data] the
    per-frame [RenderResult] behind each frame's mutex. *)
Record Engine := mkEngine {
  frame_count : nat;
  sync_data : list RenderResult;
  render_channels : list (list RenderCommand);
  present_channel : list PresentData;
  last_mesh : option addr;
  last_material : option addr;
  current_thread : nat;
  current_image_index : nat;
  swapchain_generation : nat
}.

Definition with_sync (s : list RenderResult) (e : Engine) : Engine :=
  {| frame_count := frame_count e; sync_data := s;
     render_channels := render_channels e; present_channel := present_channel e;
     last_mesh := last_mesh e; last_material := last_material e;
     current_thread := current_thread e;
     current_image_index := current_image_index e;
     swapchain_generation := swapchain_generation e |}.

Definition with_image_index (i : nat) (e : Engine) : Engine :=
  {| frame_count := frame_count e; sync_data := sync_data e;
     render_channels := render_channels e; present_channel := present_channel e;
     last_mesh := last_mesh e; last_material := last_material e;
     current_thread := current_thread e;
     current_image_index := i;
     swapchain_generation := swapchain_generation e |}.

Definition with_channels (chs : list (list RenderCommand)) (e : Engine) : Engine :=
  {| frame_count := frame_count e; sync_data := sync_data e;
     render_channels := chs; present_channel := present_channel e;
     last_mesh := last_mesh e; last_material := last_material e;
     current_thread := current_thread e;
     current_image_index := current_image_index e;
     swapchain_generation := swapchain_generation e |}.

(** The swapchain and depth image rebuild of [begin_rendering]
    ([Swapchain::new(.., Some(&old))], [create_depth_image]). *)
Definition recreate_swapchain (e : Engine) : Engine :=
  {| frame_count := frame_count e; sync_data := sync_data e;
     render_channels := render_channels e; present_channel := present_channel e;
     last_mesh := last_mesh e; last_material := last_material e;
     current_thread := current_thread e;
     current_image_index := current_image_index e;
     swapchain_generation := S (swapchain_generation e) |}.

(** [Engine::new]: [frame_count = 0], null [last_mesh]/[last_material],
    [current_thread = 0], one channel per render thread, no message sent.
    [Engine::new] in init.rs builds each [Frame] without a [sync_data]
    field, so its initial value is a parameter here. *)
Definition engine_new (thread_count : nat) (sync0 : RenderResult) : Engine :=
  {| frame_count := 0; sync_data := repeat sync0 FRAMES_IN_FLIGHT;
     render_channels := repeat [] thread_count; present_channel := [];
     last_mesh := None; last_material := None; current_thread := 0;
     current_image_index := 0; swapchain_generation := 0 |}.

(** [let thread_count = 1.max(available_parallelism / 2)] *)
Definition thread_count (available_parallelism : nat) : nat :=
  Nat.max 1 (available_parallelism / 2).

(** The [Begin] message sent to worker [index] of frame slot [slot]. *)
Definition begin_message (slot index : nat) : RenderCommand :=
  Begin (mkCB slot index) slot.

(** [begin_rendering]: one attempt, then the recursive retry after a
    swapchain rebuild.  [acq] supplies the results of the successive
    [swapchain.next] calls.  The wait on [sync_data] never returns while
    the slot is [NotDone] (the presentation thread has already reported
    every frame handed to it, see [present]).  [fuel] only bounds the
    recursion for Rocq; [begin_rendering] gives more than enough. *)
Fixpoint begin_rendering_go (fuel : nat) (acq : list AcquireResult) (e : Engine)
  : option Engine :=
  match fuel with
  | O => None
  | S fuel' =>
    let slot := frame_count e mod FRAMES_IN_FLIGHT in
    match nth_error (sync_data e) slot with
    | None => None
    | Some NotDone => None
    | Some r =>
      let suboptimal := RenderResult_eqb r OutOfDate in
      let e1 := with_sync (set_nth slot (if suboptimal then ROk else NotDone)
                                   (sync_data e)) e in
      let acquired : option (bool * list AcquireResult * Engine) :=
        if suboptimal then Some (true, acq, e1)
        else match acq with
             | [] => None
             | AcquireOk idx sub :: acq' => Some (sub, acq', with_image_index idx e1)
             | AcquireErr SUBOPTIMAL_KHR :: acq'
             | AcquireErr ERROR_OUT_OF_DATE_KHR :: acq' => Some (true, acq', e1)
             | AcquireErr OTHER_ERROR :: _ => None
             end in
      match acquired with
      | None => None
      | Some (true, acq', e2) => begin_rendering_go fuel' acq' (recreate_swapchain e2)
      | Some (false, _, e2) =>
        Some (with_channels (send_each (begin_message slot) (render_channels e2)) e2)
      end
    end
  end.

Definition begin_rendering (acq : list AcquireResult) (e : Engine) : option Engine :=
  begin_rendering_go (3 + 2 * length acq) acq e.

(** [std::ptr::eq(x, p)] for a non-null [x]. *)
Definition ptr_eq (a : addr) (p : option addr) : bool :=
  match p with Some b => Nat.eqb a b | None => false end.

(** [render]: rotate on any identity change, then send on the selected
    channel.  [% 0] and an out-of-range index panic. *)
Definition render (mesh : Mesh) (material : Material) (transform : Matrix4)
    (e : Engine) : option Engine :=
  let n := length (render_channels e) in
  let moved : option Engine :=
    if negb (ptr_eq (mesh_addr mesh) (last_mesh e)
             && ptr_eq (material_addr material) (last_material e)) then
      if Nat.eqb n 0 then None
      else Some {| frame_count := frame_count e; sync_data := sync_data e;
                   render_channels := render_channels e;
                   present_channel := present_channel e;
                   last_mesh := Some (mesh_addr mesh);
                   last_material := Some (material_addr material);
                   current_thread := (current_thread e + 1) mod n;
                   current_image_index := current_image_index e;
                   swapchain_generation := swapchain_generation e |}
    else Some e in
  obind moved (fun e1 =>
    match nth_error (render_channels e1) (current_thread e1) with
    | None => None
    | Some _ => Some (with_channels
                        (send_at (current_thread e1) (Render mesh material transform)
                                 (render_channels e1)) e1)
    end).

(** A draw request [(mesh, material, transform)]. *)
Definition Draw := (Mesh * Material * Matrix4)%type.

Fixpoint render_all (draws : list Draw) (e : Engine) : option Engine :=
  match draws with
  | [] => Some e
  | (m, mt, t) :: rest => obind (render m mt t e) (render_all rest)
  end.

(** [end_rendering]: [End] on every channel, the barrier (every worker
    reaches its [End]), the primary buffer work, one [PresentData], and
    [frame_count += 1]. *)
Definition end_rendering (e : Engine) : Engine :=
  let slot := frame_count e mod FRAMES_IN_FLIGHT in
  {| frame_count := frame_count e + 1; sync_data := sync_data e;
     render_channels := send_each (fun _ => End) (render_channels e);
     present_channel := present_channel e ++ [mkPD slot (current_image_index e)];
     last_mesh := last_mesh e; last_material := last_material e;
     current_thread := current_thread e;
     current_image_index := current_image_index e;
     swapchain_generation := swapchain_generation e |}.

(** Result of [queue_present]. *)
Inductive PresentResult := PresentOk (suboptimal : bool) | PresentErr (e : VkError).

(** One iteration of [presentation_thread] on [data]: submit, present,
    store the staleness in the frame's [sync_data] and notify. *)
Definition present (data : PresentData) (r : PresentResult) (e : Engine)
  : option Engine :=
  let suboptimal := match r with
                    | PresentOk v => Some v
                    | PresentErr ERROR_OUT_OF_DATE_KHR => Some true
                    | PresentErr _ => None
                    end in
  obind suboptimal (fun s =>
    Some (with_sync (set_nth (pd_slot data) (if s then OutOfDate else ROk)
                             (sync_data e)) e)).

(** ** Render worker ([render_thread]) *)

(** Device calls recorded by a worker, on the command buffer it holds. *)
Inductive DeviceCall :=
| BeginCommandBuffer (cmd : CommandBuffer)
| BindIndexBuffer (cmd : CommandBuffer) (mesh : addr)
| BindVertexBuffers (cmd : CommandBuffer) (mesh : addr)
| BindPipeline (cmd : CommandBuffer) (material : addr)
| BindDescriptorSets (cmd : CommandBuffer) (material : addr) (desc : nat)
| PushConstants (cmd : CommandBuffer) (material : addr) (transform : Matrix4)
| DrawIndexed (cmd : CommandBuffer) (index_count : nat)
| EndCommandBuffer (cmd : CommandBuffer).

(** The locals of [render_thread] ([cmd] is [None] for
    [vk::CommandBuffer::null()]) and the device calls made so far. *)
Record Worker := mkWorker {
  w_cmd : option CommandBuffer;
  w_last_mesh : option addr;
  w_last_material : option addr;
  w_global_descriptor : nat;
  w_calls : list DeviceCall
}.

Definition worker_init : Worker := mkWorker None None None 0 [].

(** [cull_test] is a stub returning [true]. *)
Definition cull_test (mesh : Mesh) (model : Matrix4) : bool := true.

(** [mesh.bind(device, cmd)]: index buffer, then vertex buffers. *)
Definition mesh_bind (cmd : CommandBuffer) (mesh : Mesh) : list DeviceCall :=
  [BindIndexBuffer cmd (mesh_addr mesh); BindVertexBuffers cmd (mesh_addr mesh)].

(** One loop iteration of [render_thread] on a received command.  A
    [Render] or [End] without a begun buffer fails ([debug_assert_ne!] /
    [end_command_buffer(null).unwrap()]). *)
Definition render_thread_step (w : Worker) (c : RenderCommand) : option Worker :=
  match c with
  | Begin cmd_buf desc =>
    Some (mkWorker (Some cmd_buf) (w_last_mesh w) (w_last_material w) desc
                   (w_calls w ++ [BeginCommandBuffer cmd_buf]))
  | Render mesh material transform =>
    match w_cmd w with
    | None => None
    | Some cmd =>
      if cull_test mesh transform then
        let '(lm, calls1) :=
          if negb (ptr_eq (mesh_addr mesh) (w_last_mesh w))
          then (Some (mesh_addr mesh), w_calls w ++ mesh_bind cmd mesh)
          else (w_last_mesh w, w_calls w) in
        let '(lmat, calls2) :=
          if negb (ptr_eq (material_addr material) (w_last_material w))
          then (Some (material_addr material),
                calls1 ++ [BindPipeline cmd (material_addr material);
                           BindDescriptorSets cmd (material_addr material)
                                              (w_global_descriptor w)])
          else (w_last_material w, calls1) in
        Some (mkWorker (Some cmd) lm lmat (w_global_descriptor w)
                       (calls2 ++ [PushConstants cmd (material_addr material) transform;
                                   DrawIndexed cmd (index_count mesh)]))
      else Some w
    end
  | End =>
    match w_cmd w with
    | None => None
    | Some cmd =>
      Some (mkWorker None None None (w_global_descriptor w)
                     (w_calls w ++ [EndCommandBuffer cmd]))
    end
  end.

(** The worker loop over the messages of its channel, in order. *)
Fixpoint run_worker (msgs : list RenderCommand) (w : Worker) : option Worker :=
  match msgs with
  | [] => Some w
  | c :: rest => obind (render_thread_step w c) (run_worker rest)
  end.

(** The state of the worker that owns a channel, after it has handled
    every message sent on that channel so far. *)
Definition worker_of (log : list RenderCommand) : option Worker :=
  run_worker log worker_init.

Definition is_bind_pipeline (d : DeviceCall) : bool :=
  match d with BindPipeline _ _ => true | _ => false end.

Definition is_rebind (d : DeviceCall) : bool :=
  match d with
  | BindPipeline _ _ | BindIndexBuffer _ _ | BindVertexBuffers _ _
  | BindDescriptorSets _ _ _ => true
  | _ => false
  end.

Definition pipeline_binds (calls : list DeviceCall) : nat :=
  length (filter is_bind_pipeline calls).

(** Pipeline binds recorded by all workers together. *)
Fixpoint total_pipeline_binds (chs : list (list RenderCommand)) : option nat :=
  match chs with
  | [] => Some 0
  | log :: rest =>
    obind (worker_of log) (fun w =>
      obind (total_pipeline_binds rest) (fun k => Some (pipeline_binds (w_calls w) + k)))
  end.

(** A worker between frames: no buffer begun, nothing last bound. *)
Definition idle (w : Worker) : Prop :=
  w_cmd w = None /\ w_last_mesh w = None /\ w_last_material w = None.

Definition quiescent (e : Engine) : Prop :=
  Forall (fun log => exists w, worker_of log = Some w /\ idle w) (render_channels e).

(** The message sequence of one frame on one channel:
    [Begin], any number of [Render], then [End]. *)
Fixpoint renders_then_end (l : list RenderCommand) : bool :=
  match l with
  | [End] => true
  | Render _ _ _ :: l' => renders_then_end l'
  | _ => false
  end.

Definition one_frame (l : list RenderCommand) : bool :=
  match l with
  | Begin _ _ :: l' => renders_then_end l'
  | _ => false
  end.

(** One frame driven by the caller: [begin_rendering], [render] for each
    draw in order, [end_rendering]. *)
Definition run_frame (acq : list AcquireResult) (draws : list Draw) (e : Engine)
  : option Engine :=
  obind (begin_rendering acq e) (fun e1 =>
    obind (render_all draws e1) (fun e2 => Some (end_rendering e2))).

(** The worker handles [c] without binding a mesh, a pipeline or a
    descriptor set. *)
Definition no_rebind_on (w : Worker) (c : RenderCommand) : Prop :=
  exists w' new, render_thread_step w c = Some w' /\
    w_calls w' = w_calls w ++ new /\ filter is_rebind new = [].

(** Over the frame from [before] to [after], both draws of the same
    [(mesh, material)] went to one worker [i], and that worker handled the
    second one without any rebind. *)
Definition second_render_no_rebind (before after : Engine) (m : Mesh) (mt : Material)
    (t1 t2 : Matrix4) : Prop :=
  exists i log cb d w1,
    nth_error (render_channels before) i = Some log /\
    nth_error (render_channels after) i =
      Some (log ++ [Begin cb d; Render m mt t1; Render m mt t2; End]) /\
    run_worker (log ++ [Begin cb d; Render m mt t1]) worker_init = Some w1 /\
    no_rebind_on w1 (Render m mt t2).

Definition draw_material (d : Draw) : addr := material_addr (snd (fst d)).
Definition draw_mesh (d : Draw) : addr := mesh_addr (fst (fst d)).

(** Draw lists sorted by [(material, mesh)]. *)
Definition draw_le (d1 d2 : Draw) : Prop :=
  draw_material d1 < draw_material d2 \/
  (draw_material d1 = draw_material d2 /\ draw_mesh d1 <= draw_mesh d2).

Definition distinct_materials (draws : list Draw) : nat :=
  length (nodup Nat.eq_dec (map draw_material draws)).

(** Number of material changes seen by a worker whose last bound material
    is [last] and which then draws with materials [mats]. *)
Fixpoint material_changes (last : option addr) (mats : list addr) : nat :=
  match mats with
  | [] => 0
  | a :: rest => (if ptr_eq a last then 0 else 1) + material_changes (Some a) rest
  end.

Definition is_render (c : RenderCommand) : Prop :=
  match c with Render _ _ _ => True | _ => False end.

(** Batching state of the orchestrator. *)
Definition batching_state (e : Engine) : option addr * option addr * nat :=
  (last_mesh e, last_material e, current_thread e).

(** Fields kept by a [begin_rendering] attempt. *)
Definition same_frame (e e2 : Engine) : Prop :=
  frame_count e2 = frame_count e /\ render_channels e2 = render_channels e /\
  batching_state e2 = batching_state e.

(** A channel in the middle of a frame: [Begin] then only [Render]s. *)
Definition in_frame (before after : list RenderCommand) : Prop :=
  exists cb d rs, after = before ++ Begin cb d :: rs /\ Forall is_render rs.

(** The [Render] message of a draw. *)
Definition draw_render (d : Draw) : RenderCommand :=
  Render (fst (fst d)) (snd (fst d)) (snd d).

End Engine.

(** ** Resource builders *)

Module MeshBuild.

(** [Vertex] (position, normal: two [Vector3<f32>]) is opaque here; its
    [size_of] is 24 bytes. *)
Definition Vertex := nat.
Definition size_of_Vertex : nat := 24.
Definition size_of_u32 : nat := 4.

Inductive BufferUsage := TRANSFER_SRC | VERTEX_BUFFER_DST | INDEX_BUFFER_DST.

(** [Buffer]: an allocator-backed buffer of a given size and usage. *)
Record Buffer := mkBuffer { buf_usage : BufferUsage; buf_size : nat }.

(** [struct Mesh { indices, _vertices, vertex_buffer, index_buffer }] *)
Record Mesh := mkMesh {
  indices : list nat;
  vertices_ : list Vertex;      (* the field [_vertices] *)
  vertex_buffer : Buffer;
  index_buffer : Buffer
}.

(** [Mesh::new].  [buffer_new usage size] says whether [Buffer::new]
    succeeds; [gpu_ok] whether the command buffer begin/end, the submit and
    the queue wait succeed.  Every failure is returned with [?]. *)
Definition mesh_new (buffer_new : BufferUsage -> nat -> bool) (gpu_ok : bool)
    (vertices : list Vertex) (indices : list nat) : option Mesh :=
  let vertex_size := size_of_Vertex * length vertices in
  let index_size := size_of_u32 * length indices in
  if negb (buffer_new TRANSFER_SRC (vertex_size + index_size)) then None
  else if negb (buffer_new VERTEX_BUFFER_DST vertex_size) then None
  else if negb (buffer_new INDEX_BUFFER_DST index_size) then None
  else if negb gpu_ok then None
  else Some (mkMesh indices vertices
                    (mkBuffer VERTEX_BUFFER_DST vertex_size)
                    (mkBuffer INDEX_BUFFER_DST index_size)).

(** [get_index_count]: [self.indices.len() as u32]. *)
Definition get_index_count (m : Mesh) : N := (N.of_nat (length (indices m)) mod 2 ^ 32)%N.

End MeshBuild.

Module Texture.

Inductive ImageLayout := UNDEFINED | TRANSFER_DST_OPTIMAL | SHADER_READ_ONLY_OPTIMAL.

(** Calls made on the one-shot command buffer and the queue. *)
Inductive TransferCall :=
| BeginCommandBuffer
| PipelineBarrier (old_layout new_layout : ImageLayout)
| CopyBufferToImage (dst_layout : ImageLayout)
| EndCommandBuffer
| QueueSubmit
| QueueWaitIdle.

Record Texture := mkTexture { tex_width : nat; tex_height : nat }.

(** [Texture::new]: [decoded] is the PNG header and frame ([None] when the
    file cannot be opened or decoded), [alloc_ok] whether the staging
    buffer and the image allocate.  Returns the calls recorded and
    submitted, with the result. *)
Definition texture_new (decoded : option (nat * nat)) (alloc_ok : bool)
  : list TransferCall * option Texture :=
  match decoded with
  | None => ([], None)
  | Some (width, height) =>
    if negb alloc_ok then ([], None)
    else
      let barrier1 := PipelineBarrier UNDEFINED TRANSFER_DST_OPTIMAL in
      let cpy := CopyBufferToImage TRANSFER_DST_OPTIMAL in
      let barrier2 := PipelineBarrier TRANSFER_DST_OPTIMAL SHADER_READ_ONLY_OPTIMAL in
      ([BeginCommandBuffer; barrier1; barrier2; cpy; EndCommandBuffer;
        QueueSubmit; QueueWaitIdle],
       Some (mkTexture width height))
  end.

(** The layout transitions and the copy, in recording order. *)
Definition is_image_step (c : TransferCall) : bool :=
  match c with
  | PipelineBarrier _ _ | CopyBufferToImage _ => true
  | _ => false
  end.

End Texture.

(** ** Engine teardown ([impl Drop for Engine]) *)

Module Teardown.

Inductive Event :=
| DeviceWaitIdle
| JoinPresentThread
| JoinRenderThread (k : nat)
| DestroyUtilityPool
| DestroyFrameObjects (i : nat)   (* command pools, semaphores, fence *)
| DropUbo (i : nat)               (* [ManuallyDrop::drop(&mut frame.ubo)] *)
| DropDepthImage
| DestroyDepthView
| DestroyDescriptorPool
| DestroyDescriptorSetLayout
| DropSwapchain
| DestroyAllocator
| LogAllocatorLeak                (* the [error!] before the panic *)
| Panic
| CleanupCache
| DestroyDevice
| DestroySurface
| DestroyInstance.

(** [alloc_refs]: the strong count of [self.allocator]; [trace]: what
    has been done so far. *)
Record DropState := mkDS { alloc_refs : nat; trace : list Event }.

Definition emit (ev : Event) (s : DropState) : DropState :=
  mkDS (alloc_refs s) (trace s ++ [ev]).

(** Dropping an allocator-backed [Image] or [Buffer] drops its
    [Arc<Allocator>] clone. *)
Definition drop_backed (ev : Event) (s : DropState) : DropState :=
  mkDS (alloc_refs s - 1) (trace s ++ [ev]).

(** [while let Some(handle) = self.render_thread_handles.pop()]: last
    thread first. *)
Fixpoint join_render_threads (k : nat) (s : DropState) : DropState :=
  match k with
  | O => s
  | S k' => join_render_threads k' (emit (JoinRenderThread k') s)
  end.

Fixpoint drop_frames (i n : nat) (s : DropState) : DropState :=
  match n with
  | O => s
  | S n' => drop_frames (S i) n' (drop_backed (DropUbo i) (emit (DestroyFrameObjects i) s))
  end.

(** [Drop for Engine].  Each frame's [ubo] ([GpuObject]) and the depth
    [Image] hold one reference each; [external] counts the references held
    outside the Engine (meshes, textures, ...). *)
Definition drop_engine (threads external : nat) : DropState :=
  let s0 := mkDS (1 + Engine.FRAMES_IN_FLIGHT + 1 + external) [] in
  let s1 := emit JoinPresentThread (emit DeviceWaitIdle s0) in
  let s2 := join_render_threads threads s1 in
  let s3 := drop_frames 0 Engine.FRAMES_IN_FLIGHT (emit DestroyUtilityPool s2) in
  let s4 := emit DestroyDescriptorSetLayout (emit DestroyDescriptorPool
              (emit DestroyDepthView (drop_backed DropDepthImage s3))) in
  let s5 := emit DropSwapchain s4 in
  (* [Arc::get_mut] succeeds exactly when the strong count is 1 *)
  if Nat.eqb (alloc_refs s5) 1 then
    emit DestroyInstance (emit DestroySurface (emit DestroyDevice
      (emit CleanupCache (emit DestroyAllocator s5))))
  else emit Panic (emit LogAllocatorLeak s5).

(** The allocator-backed resources the Engine owns, and the swapchain. *)
Definition owned_resource (ev : Event) : bool :=
  match ev with
  | DropUbo _ | DropDepthImage | DropSwapchain => true
  | _ => false
  end.

End Teardown.

(** ** Pipeline cache ([pipeline.rs]) *)

Module PipelineCache.

Definition Bytes := list nat.

(** A [vk::PipelineCache], with the initial data it was created from. *)
Record PipelineCache := mkCache { cache_initial_data : option Bytes }.

Inductive Error := ShaderError | VkCacheError | VkPipelineError.

Inductive Log := LogInfo | LogError.

(** The outcome of the external calls made by one [create_pipeline]:
    shader reflection and module creation, [fs::read] of the cache file,
    [create_pipeline_cache], [create_graphics_pipelines]. *)
Record CallEnv := mkEnv {
  shaders_ok : bool;
  cache_file : option Bytes;
  create_cache_ok : bool;
  pipelines_ok : bool
}.

(** [load_cache]: the file contents when [fs::read] succeeds, an empty
    cache otherwise; only [create_pipeline_cache] can fail. *)
Definition load_cache (env : CallEnv) : (Error + PipelineCache) * Log :=
  match cache_file env with
  | Some data =>
    (if create_cache_ok env then inr (mkCache (Some data)) else inl VkCacheError, LogInfo)
  | None =>
    (if create_cache_ok env then inr (mkCache None) else inl VkCacheError, LogInfo)
  end.

(** [OnceCell::get_or_try_init(|| load_cache(device))]. *)
Definition get_or_try_init (cell : option PipelineCache) (env : CallEnv)
  : (Error + PipelineCache) * option PipelineCache :=
  match cell with
  | Some c => (inr c, Some c)
  | None =>
    match fst (load_cache env) with
    | inr c => (inr c, Some c)
    | inl e => (inl e, None)
    end
  end.

(** [create_pipeline]: the result ([Ok] carries the cache the pipeline was
    created with) and the new content of [CACHE]. *)
Definition create_pipeline (env : CallEnv) (cell : option PipelineCache)
  : (Error + PipelineCache) * option PipelineCache :=
  if negb (shaders_ok env) then (inl ShaderError, cell)
  else
    let '(r, cell') := get_or_try_init cell env in
    match r with
    | inl e => (inl e, cell')
    | inr c => (if pipelines_ok env then inr c else inl VkPipelineError, cell')
    end.

(** [cleanup_cache]: [get_data] is [get_pipeline_cache_data], [write_ok]
    whether [fs::write] succeeds.  Returns [()]; the log lines and whether
    the cache was destroyed are observable. *)
Definition cleanup_cache (cell : option PipelineCache) (get_data : option Bytes)
    (write_ok : bool) : list Log * bool :=
  match cell with
  | None => ([], false)
  | Some _ =>
    (match get_data with
     | Some _ => if write_ok then [LogInfo] else [LogError]
     | None => []
     end, true)
  end.

(** Two call environments: the cache creation fails, and everything succeeds. *)
Definition env_cache_fails : CallEnv := mkEnv true None false true.
Definition env_all_ok : CallEnv := mkEnv true None true true.

End PipelineCache.

(** ** Swapchain image count ([create_swapchain]) *)

Module SwapchainInit.

Open Scope N_scope.

Definition U32_MAX : N := 2 ^ 32 - 1.

(** [a + b] on [u32]; overflow panics (debug builds). *)
Definition add_u32 (a b : N) : option N :=
  if a + b <=? U32_MAX then Some (a + b) else None.

Record SurfaceCapabilities := mkCaps {
  min_image_count : N;
  max_image_count : N
}.

Definition image_count (c : SurfaceCapabilities) : option N :=
  if N.eqb (max_image_count c) 0 then add_u32 (min_image_count c) 1
  else obind (add_u32 (min_image_count c) 1)
             (fun s => Some (N.min (max_image_count c) s)).

End SwapchainInit.


Module DeviceInit.

(** Errors returned with [?] by the initialization helpers of [init.rs]. *)
Inductive InitError :=
| VkError              (* a Vulkan query or creation call failed *)
| NoValidGpu           (* "No valid gpu available" *)
| NoGraphicsQueue      (* "Failed to find graphics queue" *)
| NoPresentQueue       (* "Failed to find presentation queue" *)
| NoSurfaceFormat      (* "Failed to find valid surface format" *)
| NoDepthFormat.       (* "Failed to find a valid depth image format" *)

(** A queue family as the loops of [init.rs] see it: whether its
    [queue_flags] contain [GRAPHICS], and
    [get_physical_device_surface_support(..).unwrap_or(false)] at its
    index.  Family counts come from Vulkan as [u32], so [index as u32] is
    the index itself. *)
(** [Option::is_some]. *)
Definition is_some {A} (o : option A) : bool :=
  match o with Some _ => true | None => false end.

Record QueueFamily := mkQF { qf_graphics : bool; qf_present : bool }.

(** The [for (index, prop) in ..enumerate()] loop of [get_queue_families],
    with its early [break]. *)
Fixpoint queue_family_loop (index : nat) (props : list QueueFamily)
    (graphics present : option nat) : option nat * option nat :=
  match props with
  | [] => (graphics, present)
  | prop :: rest =>
    let graphics := if qf_graphics prop then Some index else graphics in
    let present := if qf_present prop then Some index else present in
    if is_some present && is_some graphics then (graphics, present)
    else queue_family_loop (S index) rest graphics present
  end.

(** [get_queue_families]: [[graphics, present]]. *)
Definition get_queue_families (props : list QueueFamily) : InitError + (nat * nat) :=
  let '(graphics, present) := queue_family_loop 0 props None None in
  match graphics, present with
  | None, _ => inl NoGraphicsQueue
  | Some _, None => inl NoPresentQueue
  | Some g, Some p => inr (g, p)
  end.

(** Extension names are compared with [CStr] equality only. *)
Definition ExtensionName := nat.

(** What [get_physical_device] and [is_valid_device] query of a device:
    the [dynamic_rendering] feature, [enumerate_device_extension_properties]
    ([None] on error), the queue families, and whether [device_type] is
    [DISCRETE_GPU]. *)
Record PhysicalDevice := mkDevice {
  dev_dynamic_rendering : bool;
  dev_extensions : option (list ExtensionName);
  dev_families : list QueueFamily;
  dev_discrete : bool
}.

(** [is_valid_device]. *)
Definition is_valid_device (extensions : list ExtensionName) (device : PhysicalDevice) : bool :=
  if negb (dev_dynamic_rendering device) then false
  else match dev_extensions device with
       | Some props => forallb (fun ext => existsb (Nat.eqb ext) props) extensions
       | None => false
       end.

(** The queue filter closure of [get_physical_device], with its [break]. *)
Fixpoint queue_scan (props : list QueueFamily) (has_graphics has_present : bool)
  : bool * bool :=
  match props with
  | [] => (has_graphics, has_present)
  | prop :: rest =>
    let has_graphics := has_graphics || qf_graphics prop in
    let has_present := has_present || qf_present prop in
    if has_graphics && has_present then (has_graphics, has_present)
    else queue_scan rest has_graphics has_present
  end.

Definition has_queues (device : PhysicalDevice) : bool :=
  let '(has_graphics, has_present) := queue_scan (dev_families device) false false in
  has_present && has_graphics.



Inductive Format :=
| B8G8R8_SRGB | D32_SFLOAT | D32_SFLOAT_S8_UINT | D24_UNORM_S8_UINT
| OtherFormat (n : nat).





Inductive PresentMode := IMMEDIATE | MAILBOX | FIFO | FIFO_RELAXED | OtherPresentMode (n : nat).

Definition is_mailbox (mode : PresentMode) : bool :=
  match mode with MAILBOX => true | _ => false end.

(** [get_present_mode]: [modes] is
    [get_physical_device_surface_present_modes(..)]. *)
Definition get_present_mode (modes : option (list PresentMode)) : InitError + PresentMode :=
  match modes with
  | None => inl VkError
  | Some ms =>
    match find is_mailbox ms with
    | Some mode => inr mode
    | None => inr FIFO
    end
  end.

Inductive ImageTiling := OPTIMAL | LINEAR | OtherTiling (n : nat).

(** Whether [linear_tiling_features] / [optimal_tiling_features] of a
    format contain [DEPTH_STENCIL_ATTACHMENT]. *)
Record FormatProperties := mkFormatProps {
  linear_depth_stencil : bool;
  optimal_depth_stencil : bool
}.

Definition possible_formats : list Format :=
  [D32_SFLOAT; D32_SFLOAT_S8_UINT; D24_UNORM_S8_UINT].

Definition depth_supported (props : Format -> FormatProperties) (tiling : ImageTiling)
    (fmt : Format) : bool :=
  match tiling with
  | LINEAR => linear_depth_stencil (props fmt)
  | OPTIMAL => optimal_depth_stencil (props fmt)
  | OtherTiling _ => false
  end.

(** [get_depth_format]: [props] is [get_physical_device_format_properties]. *)
Definition get_depth_format (props : Format -> FormatProperties) (tiling : ImageTiling)
  : InitError + Format :=
  match find (depth_supported props tiling) possible_formats with
  | Some fmt => inr fmt
  | None => inl NoDepthFormat
  end.

Record Extent2D := mkExtent { width : N; height : N }.

(** [get_physical_device_surface_capabilities]: the current extent and the
    image counts. *)
Record SurfaceCaps := mkSurfaceCaps {
  current_extent : Extent2D;
  image_counts : SwapchainInit.SurfaceCapabilities
}.

Inductive SharingMode := EXCLUSIVE | CONCURRENT.

(** The fields of [SwapchainCreateInfoKHR] chosen by [create_swapchain]. *)
Record SwapchainCreateInfo := mkSwapchainInfo {
  sci_min_image_count : N;
  sci_image_format : Format;
  sci_image_extent : Extent2D;
  sci_sharing_mode : SharingMode;
  sci_queue_family_indices : list N;
  sci_present_mode : PresentMode
}.

(** [create_swapchain].  [None] is a panic: the [u32] overflow of
    [min_image_count + 1] or [queue_families[0]], [queue_families[1]] out
    of bounds.  [create_ok] is whether [create_swapchain] succeeds; the
    create info is returned with the extent. *)
Definition create_swapchain (caps : option SurfaceCaps) (queue_families : list N)
    (image_format : Format) (resolution : N * N) (modes : option (list PresentMode))
    (create_ok : bool) : option (InitError + (SwapchainCreateInfo * Extent2D)) :=
  match caps with
  | None => Some (inl VkError)
  | Some capabilities =>
    let extent := if N.eqb (height (current_extent capabilities)) SwapchainInit.U32_MAX
                  then mkExtent (fst resolution) (snd resolution)
                  else current_extent capabilities in
    obind (SwapchainInit.image_count (image_counts capabilities)) (fun image_count =>
    obind (nth_error queue_families 0) (fun q0 =>
    obind (nth_error queue_families 1) (fun q1 =>
      let share_mode := if N.eqb q0 q1 then EXCLUSIVE else CONCURRENT in
      match get_present_mode modes with
      | inl e => Some (inl e)
      | inr mode =>
        if create_ok
        then Some (inr (mkSwapchainInfo image_count image_format extent share_mode
                                         queue_families mode, extent))
        else Some (inl VkError)
      end)))
  end.

(** [sorted_unstable()] on [u32]: the sorted order is unique. *)
Fixpoint insert_sorted (x : N) (l : list N) : list N :=
  match l with
  | [] => [x]
  | y :: rest => if (x <=? y)%N then x :: y :: rest else y :: insert_sorted x rest
  end.

Fixpoint sort_u32 (l : list N) : list N :=
  match l with
  | [] => []
  | x :: rest => insert_sorted x (sort_u32 rest)
  end.

(** [Itertools::dedup]: drops consecutive duplicates. *)
Fixpoint dedup (l : list N) : list N :=
  match l with
  | [] => []
  | x :: rest =>
    match rest with
    | [] => [x]
    | y :: _ => if N.eqb x y then dedup rest else x :: dedup rest
    end
  end.

(** The [queue_family_index] of each [DeviceQueueCreateInfo] built by
    [create_device]. *)
Definition queue_create_families (queue_families : list N) : list N :=
  dedup (sort_u32 queue_families).

(** A device passes both filters of [get_physical_device]:
    [is_valid_device], then the queue scan of its [filter] closure. *)
Definition device_accepted (extensions : list ExtensionName) (d : PhysicalDevice) : bool :=
  is_valid_device extensions d && has_queues d.

End DeviceInit.


Module EngineRun.
Import Engine.


Definition is_draw (d : DeviceCall) : bool :=
  match d with DrawIndexed _ _ => true | _ => false end.

Definition draw_calls (calls : list DeviceCall) : nat := length (filter is_draw calls).

(** [cmd_draw_indexed] calls recorded by all workers together. *)
Fixpoint total_draw_calls (chs : list (list RenderCommand)) : option nat :=
  match chs with
  | [] => Some 0
  | log :: rest =>
    obind (worker_of log) (fun w =>
      obind (total_draw_calls rest) (fun k => Some (draw_calls (w_calls w) + k)))
  end.

Definition is_render_msg (c : RenderCommand) : bool :=
  match c with Render _ _ _ => true | _ => false end.

(** [Render] messages sent on a channel. *)
Definition render_msgs (log : list RenderCommand) : nat := length (filter is_render_msg log).

(** An acquisition that sends [begin_rendering] to its swapchain rebuild:
    [Ok(true)], [SUBOPTIMAL_KHR] or [ERROR_OUT_OF_DATE_KHR]. *)
Definition requests_rebuild (a : AcquireResult) : bool :=
  match a with
  | AcquireOk _ sub => sub
  | AcquireErr SUBOPTIMAL_KHR | AcquireErr ERROR_OUT_OF_DATE_KHR => true
  | AcquireErr OTHER_ERROR => false
  end.

End EngineRun.

(** ** Shader modules of [create_pipeline] ([pipeline.rs]) *)

Module PipelineBuild.

(** [info.get_shader_stage()] of a reflected module. *)
Inductive ReflectStage :=
| R_VERTEX | R_FRAGMENT | R_GEOMETRY | R_TESSELLATION_CONTROL
| R_TESSELLATION_EVALUATION | R_COMPUTE | R_OTHER (bits : nat).

Inductive ShaderStage :=
| VERTEX | FRAGMENT | GEOMETRY | TESSELLATION_CONTROL | TESSELLATION_EVALUATION | COMPUTE.

(** The [match] on the reflected stage; [None] is [Err("Invalid stage flags")]. *)
Definition stage_flags (s : ReflectStage) : option ShaderStage :=
  match s with
  | R_VERTEX => Some VERTEX
  | R_FRAGMENT => Some FRAGMENT
  | R_GEOMETRY => Some GEOMETRY
  | R_TESSELLATION_CONTROL => Some TESSELLATION_CONTROL
  | R_TESSELLATION_EVALUATION => Some TESSELLATION_EVALUATION
  | R_COMPUTE => Some COMPUTE
  | R_OTHER _ => None
  end.

(** One element of [module_data]: whether [spirv_reflect::create_shader_module],
    [ash::util::read_spv] and [device.create_shader_module] succeed on it,
    and the stage its reflection reports. *)
Record ShaderInput := mkShader {
  reflect_ok : bool;
  spv_ok : bool;
  module_ok : bool;
  stage : ReflectStage
}.

Inductive PipelineError :=
| ReflectError | SpvError | ModuleError | InvalidStageFlags | LayoutError
| CacheError (e : PipelineCache.Error) | PipelinesError.

(** Objects created and destroyed by [create_pipeline]; shader module [i]
    is the [i]-th one created. *)
Inductive PipelineCall :=
| CreateShaderModule (i : nat)
| DestroyShaderModule (i : nat)
| CreatePipelineLayout
| CreateGraphicsPipelines.

(** The [map / map_ok / flatten_ok ... collect::<Result<Vec<_>, _>>()]
    chain: the iterator is lazy, so each input is reflected, read and turned
    into a module before the next one, and [collect] stops at the first
    error. *)
Fixpoint create_modules (i : nat) (inputs : list ShaderInput)
  : list PipelineCall * (PipelineError + list (ReflectStage * nat)) :=
  match inputs with
  | [] => ([], inr [])
  | s :: rest =>
    if negb (reflect_ok s) then ([], inl ReflectError)
    else if negb (spv_ok s) then ([], inl SpvError)
    else if negb (module_ok s) then ([], inl ModuleError)
    else
      let '(calls, r) := create_modules (S i) rest in
      (CreateShaderModule i :: calls,
       match r with
       | inl e => inl e
       | inr ms => inr ((stage s, i) :: ms)
       end)
  end.

(** The [stages] [collect::<Result<Vec<_>, _>>()]. *)
Fixpoint collect_stages (module_data : list (ReflectStage * nat))
  : option (list (ShaderStage * nat)) :=
  match module_data with
  | [] => Some []
  | (info, m) :: rest =>
    match stage_flags info with
    | None => None
    | Some st => obind (collect_stages rest) (fun sts => Some ((st, m) :: sts))
    end
  end.

(** [create_pipeline]: the objects created and destroyed, the result and
    the new content of [CACHE].  [layout_ok] is whether
    [create_pipeline_layout] succeeds, [cache_env] the calls of
    [load_cache], [pipelines_ok] whether [create_graphics_pipelines]
    succeeds.  The [defer!] guard, registered once [module_data] is
    collected, destroys every module on each later exit. *)
Definition create_pipeline (inputs : list ShaderInput) (layout_ok : bool)
    (cache_env : PipelineCache.CallEnv) (pipelines_ok : bool)
    (cell : option PipelineCache.PipelineCache)
  : list PipelineCall * (PipelineError + unit) * option PipelineCache.PipelineCache :=
  let '(calls, r) := create_modules 0 inputs in
  match r with
  | inl e => (calls, inl e, cell)
  | inr module_data =>
    let destroy := map (fun '(_, m) => DestroyShaderModule m) module_data in
    match collect_stages module_data with
    | None => (calls ++ destroy, inl InvalidStageFlags, cell)
    | Some _ =>
      if negb layout_ok then (calls ++ destroy, inl LayoutError, cell)
      else
        let '(rc, cell') := PipelineCache.get_or_try_init cell cache_env in
        match rc with
        | inl e => (calls ++ [CreatePipelineLayout] ++ destroy, inl (CacheError e), cell')
        | inr _ =>
          if pipelines_ok
          then (calls ++ [CreatePipelineLayout; CreateGraphicsPipelines] ++ destroy,
                inr tt, cell')
          else (calls ++ [CreatePipelineLayout] ++ destroy, inl PipelinesError, cell')
        end
    end
  end.




End PipelineBuild.

(** ** [CACHE] over the life of the program *)

Module CacheLifetime.

(** [CACHE] after a sequence of [create_pipeline] calls. *)
Fixpoint create_pipelines (envs : list PipelineCache.CallEnv)
    (cell : option PipelineCache.PipelineCache) : option PipelineCache.PipelineCache :=
  match envs with
  | [] => cell
  | env :: rest => create_pipelines rest (snd (PipelineCache.create_pipeline env cell))
  end.

Definition initializes (env : PipelineCache.CallEnv) : bool :=
  PipelineCache.shaders_ok env && PipelineCache.create_cache_ok env.

End CacheLifetime.

(** ** [Engine::load_material] *)

Module Loading.

Inductive LoadError :=
| IoError                               (* [fs::read] of a shader file *)
| PipelineFailed (e : PipelineCache.Error)
| AllocateFailed.                       (* [allocate_command_buffers] *)

(** Calls on the utility pool, and those [Texture::new] makes on the
    command buffer it is given. *)
Inductive UtilityCall :=
| AllocateCommandBuffer
| TextureCall (c : Texture.TransferCall)
| FreeCommandBuffer.

(** The [Material] built: its texture is [texture.ok()]. *)
Record LoadedMaterial := mkLoaded { mat_texture : option Texture.Texture }.

(** [load_material]: [shaders_read] is whether both [fs::read] calls
    succeed; [env] the calls of [create_pipeline]; [alloc_ok] whether the
    command buffer allocates; [decoded], [tex_alloc_ok] the inputs of
    [Texture::new].  Returns the result, the new [CACHE] and the calls. *)
Definition load_material (shaders_read : bool) (env : PipelineCache.CallEnv)
    (cell : option PipelineCache.PipelineCache) (alloc_ok : bool)
    (decoded : option (nat * nat)) (tex_alloc_ok : bool)
  : (LoadError + LoadedMaterial) * option PipelineCache.PipelineCache * list UtilityCall :=
  if negb shaders_read then (inl IoError, cell, [])
  else
    let '(r, cell') := PipelineCache.create_pipeline env cell in
    match r with
    | inl e => (inl (PipelineFailed e), cell', [])
    | inr _ =>
      if negb alloc_ok then (inl AllocateFailed, cell', [])
      else
        let '(calls, texture) := Texture.texture_new decoded tex_alloc_ok in
        (inr (mkLoaded texture), cell',
         AllocateCommandBuffer :: map TextureCall calls ++ [FreeCommandBuffer])
    end.

End Loading.


Module TeardownTrace.
Import Teardown.

(** The events of [Drop for Engine] between the render-thread joins and the
    allocator check, in source order. *)
Definition teardown_middle : list Event :=
  [DestroyUtilityPool; DestroyFrameObjects 0; DropUbo 0; DestroyFrameObjects 1; DropUbo 1;
   DropDepthImage; DestroyDepthView; DestroyDescriptorPool; DestroyDescriptorSetLayout;
   DropSwapchain].

End TeardownTrace.

(** * Properties *)

(** ** Swapchain image count *)

(** C9: with a minimum image count that leaves room for [+ 1] in [u32],
    the image count is [min + 1] when the maximum is 0 (no limit) and
    [min(max, min + 1)] otherwise; it lies between the minimum and the
    minimum plus one whenever the maximum is 0 or at least the minimum. *)
Theorem image_count_selection (c : SwapchainInit.SurfaceCapabilities)
  (Hmin : (SwapchainInit.min_image_count c < SwapchainInit.U32_MAX)%N) :
  SwapchainInit.image_count c =
    Some (if N.eqb (SwapchainInit.max_image_count c) 0
          then (SwapchainInit.min_image_count c + 1)%N
          else N.min (SwapchainInit.max_image_count c)
                     (SwapchainInit.min_image_count c + 1))%N /\
  ((SwapchainInit.max_image_count c = 0 \/
    SwapchainInit.min_image_count c <= SwapchainInit.max_image_count c)%N ->
   exists k, SwapchainInit.image_count c = Some k /\
     (SwapchainInit.min_image_count c <= k <= SwapchainInit.min_image_count c + 1)%N).
Proof.
  destruct c as [mn mx]; simpl in *.
  unfold SwapchainInit.image_count, SwapchainInit.add_u32; simpl.
  assert (Hle : (mn + 1 <=? SwapchainInit.U32_MAX)%N = true)
    by (apply N.leb_le; lia).
  rewrite Hle.
  destruct (N.eqb_spec mx 0) as [Hz | Hz]; simpl.
  - split; [reflexivity|]. intros _. exists (mn + 1)%N. split; [reflexivity|lia].
  - split; [reflexivity|]. intros [H | H]; [contradiction|].
    exists (N.min mx (mn + 1)). split; [reflexivity|lia].
Qed.

Lemma image_count_selection_witness :
  (SwapchainInit.min_image_count (SwapchainInit.mkCaps 2 3) < SwapchainInit.U32_MAX)%N /\
  SwapchainInit.image_count (SwapchainInit.mkCaps 2 3) = Some 3%N.
Proof.
  split.
  - vm_compute. reflexivity.
  - destruct (image_count_selection (SwapchainInit.mkCaps 2 3)) as [H _].
    + vm_compute. reflexivity.
    + rewrite H. reflexivity.
Defined.

(** ** Mesh construction *)

Section MeshFacts.
Import MeshBuild.

(** C6 (counterexample): a mesh built from one triangle still holds its
    three CPU-side vertices. *)
Lemma mesh_keeps_vertices_cex :
  exists m, mesh_new (fun _ _ => true) true [7; 8; 9] [0; 1; 2] = Some m /\
            vertices_ m <> [].
Proof.
  eexists. split; [reflexivity|]. simpl. discriminate.
Qed.

(** C6 (amended): a [Mesh] returned by [Mesh::new] keeps the CPU-side
    vertex list and index list it was built from; [get_index_count] is the
    length of the kept index list as a [u32]. *)
Theorem mesh_new_retains_cpu_data buffer_new gpu_ok vertices indices0 m
  (H : mesh_new buffer_new gpu_ok vertices indices0 = Some m) :
  vertices_ m = vertices /\ indices m = indices0 /\
  get_index_count m = (N.of_nat (length indices0) mod 2 ^ 32)%N.
Proof.
  unfold mesh_new in H.
  destruct (buffer_new TRANSFER_SRC _); [|discriminate].
  destruct (buffer_new VERTEX_BUFFER_DST _); [|discriminate].
  destruct (buffer_new INDEX_BUFFER_DST _); [|discriminate].
  destruct gpu_ok; [|discriminate].
  simpl in H. inversion H; subst. repeat split.
Qed.

Lemma mesh_new_retains_cpu_data_witness :
  mesh_new (fun _ _ => true) true [7; 8; 9] [0; 1; 2] =
    Some (mkMesh [0; 1; 2] [7; 8; 9] (mkBuffer VERTEX_BUFFER_DST 72)
                 (mkBuffer INDEX_BUFFER_DST 12)) /\
  vertices_ (mkMesh [0; 1; 2] [7; 8; 9] (mkBuffer VERTEX_BUFFER_DST 72)
                    (mkBuffer INDEX_BUFFER_DST 12)) = [7; 8; 9].
Proof.
  assert (H : mesh_new (fun _ _ => true) true [7; 8; 9] [0; 1; 2] =
    Some (mkMesh [0; 1; 2] [7; 8; 9] (mkBuffer VERTEX_BUFFER_DST 72)
                 (mkBuffer INDEX_BUFFER_DST 12))) by reflexivity.
  split; [exact H|].
  exact (proj1 (mesh_new_retains_cpu_data _ _ _ _ _ H)).
Defined.

End MeshFacts.

(** ** Texture construction *)

(** C5: for a decoded 1x1 image, [Texture::new] records the
    undefined->transfer-dst transition, then the transfer-dst->shader-read
    transition, and only then the buffer-to-image copy. *)
Theorem texture_new_records_copy_last :
  filter Texture.is_image_step (fst (Texture.texture_new (Some (1, 1)) true)) =
    [Texture.PipelineBarrier Texture.UNDEFINED Texture.TRANSFER_DST_OPTIMAL;
     Texture.PipelineBarrier Texture.TRANSFER_DST_OPTIMAL Texture.SHADER_READ_ONLY_OPTIMAL;
     Texture.CopyBufferToImage Texture.TRANSFER_DST_OPTIMAL].
Proof. reflexivity. Qed.

(** ** Engine teardown *)

Section TeardownFacts.
Import Teardown.

Lemma join_render_threads_refs k s :
  alloc_refs (join_render_threads k s) = alloc_refs s.
Proof.
  revert s; induction k as [|k IH]; intro s; simpl; [reflexivity|].
  rewrite IH. reflexivity.
Qed.

Lemma join_render_threads_trace k s :
  exists js, trace (join_render_threads k s) = trace s ++ js /\
             (forall ev, In ev js -> exists j, ev = JoinRenderThread j).
Proof.
  revert s; induction k as [|k IH]; intro s; simpl.
  - exists []. rewrite app_nil_r. split; [reflexivity|intros ev []].
  - destruct (IH (emit (JoinRenderThread k) s)) as [js [Hjs Hin]].
    exists (JoinRenderThread k :: js). split.
    + rewrite Hjs. simpl. rewrite <- app_assoc. reflexivity.
    + intros ev [<- | H]; [eauto|auto].
Qed.

(** C7: dropping the Engine drops the per-frame uniform objects, the
    depth image and the swapchain before the allocator check; when no
    handle outside the Engine remains, the allocator is destroyed after all
    of them and no owned resource is dropped later; otherwise the strong
    count seen by the check is above 1 and the drop logs the leak and
    panics without destroying the allocator. *)
Theorem drop_engine_allocator_last threads external :
  let s := drop_engine threads external in
  alloc_refs s = 1 + external /\
  (external = 0 ->
   exists pre post, trace s = pre ++ DestroyAllocator :: post /\
     In (DropUbo 0) pre /\ In (DropUbo 1) pre /\ In DropDepthImage pre /\
     In DropSwapchain pre /\
     forallb (fun ev => negb (owned_resource ev)) post = true) /\
  (external <> 0 ->
   ~ In DestroyAllocator (trace s) /\
   exists pre, trace s = pre ++ [LogAllocatorLeak; Panic]).
Proof.
  unfold drop_engine. cbv zeta.
  set (s1 := emit JoinPresentThread (emit DeviceWaitIdle
               (mkDS (1 + Engine.FRAMES_IN_FLIGHT + 1 + external) []))).
  destruct (join_render_threads_trace threads s1) as [js [Hjs Hin]].
  pose proof (join_render_threads_refs threads s1) as Hr.
  destruct (join_render_threads threads s1) as [r2 t2]. simpl in Hr, Hjs.
  subst r2 t2. unfold s1. 
  simpl.
  destruct external as [|ext].
  - simpl. split; [reflexivity|]. split; [|intros H; congruence].
    intros _.
    exists (DeviceWaitIdle :: JoinPresentThread :: js ++
            [DestroyUtilityPool; DestroyFrameObjects 0; DropUbo 0;
             DestroyFrameObjects 1; DropUbo 1; DropDepthImage; DestroyDepthView;
             DestroyDescriptorPool; DestroyDescriptorSetLayout; DropSwapchain]).
    exists [CleanupCache; DestroyDevice; DestroySurface; DestroyInstance].
    split.
    + simpl. rewrite <- !app_assoc. reflexivity.
    + repeat split; try reflexivity; simpl; right; right; apply in_or_app; right; simpl; tauto.
  - simpl. split; [reflexivity|]. split; [intros H; discriminate|].
    intros _. split.
    + intros H. rewrite <- !app_assoc in H. simpl in H.
      destruct H as [H|[H|H]]; [discriminate|discriminate|].
      apply in_app_or in H. destruct H as [H|H].
      * apply Hin in H. destruct H as [j Hj]. discriminate.
      * simpl in H. repeat (destruct H as [H|H]; [discriminate|]). exact H.
    + exists (DeviceWaitIdle :: JoinPresentThread :: js ++
            [DestroyUtilityPool; DestroyFrameObjects 0; DropUbo 0;
             DestroyFrameObjects 1; DropUbo 1; DropDepthImage; DestroyDepthView;
             DestroyDescriptorPool; DestroyDescriptorSetLayout; DropSwapchain]).
      simpl. rewrite <- !app_assoc. reflexivity.
Qed.

Lemma drop_engine_allocator_last_witness :
  alloc_refs (drop_engine 4 0) = 1 /\
  exists pre post, trace (drop_engine 4 0) = pre ++ DestroyAllocator :: post /\
     In (DropUbo 0) pre /\ In (DropUbo 1) pre /\ In DropDepthImage pre /\
     In DropSwapchain pre /\
     forallb (fun ev => negb (owned_resource ev)) post = true.
Proof.
  destruct (drop_engine_allocator_last 4 0) as [H1 [H2 _]].
  split; [exact H1|]. apply H2. reflexivity.
Defined.

End TeardownFacts.

(** ** Pipeline cache *)

Section CacheFacts.
Import PipelineCache.

(** C8 (counterexample): when the first [create_pipeline] call fails to
    create the cache, that call returns the error and leaves [CACHE]
    empty, and the second caller is the one that creates it. *)
Lemma cache_first_caller_cex :
  create_pipeline env_cache_fails None = (inl VkCacheError, None) /\
  create_pipeline env_all_ok (snd (create_pipeline env_cache_fails None)) =
    (inr (mkCache None), Some (mkCache None)).
Proof. split; reflexivity. Qed.

(** C8 (amended): a missing or unreadable cache file yields an empty
    cache (only a failure of [create_pipeline_cache] itself is returned);
    a failed write at shutdown is logged and [cleanup_cache] still
    destroys the cache and returns [()]; once [CACHE] holds a cache every
    later [create_pipeline] reuses it unchanged; while it is empty, a call
    stores a cache exactly when its shaders are valid and its
    [load_cache] succeeds, and otherwise leaves it empty. *)
Theorem pipeline_cache_lazy_init :
  (forall env, cache_file env = None ->
     fst (load_cache env) =
       if create_cache_ok env then inr (mkCache None) else inl VkCacheError) /\
  (forall c data, cleanup_cache (Some c) (Some data) false = ([LogError], true)) /\
  (forall env c,
     create_pipeline env (Some c) =
       (if negb (shaders_ok env) then inl ShaderError
        else if pipelines_ok env then inr c else inl VkPipelineError, Some c)) /\
  (forall env,
     snd (create_pipeline env None) =
       if shaders_ok env && create_cache_ok env
       then Some (mkCache (cache_file env)) else None).
Proof.
  split; [|split; [|split]].
  - intros env H. unfold load_cache. rewrite H. reflexivity.
  - reflexivity.
  - intros env c. unfold create_pipeline. simpl.
    destruct (shaders_ok env), (pipelines_ok env); reflexivity.
  - intros [sh file cok pok]. unfold create_pipeline, get_or_try_init, load_cache.
    simpl. destruct sh; simpl; [|reflexivity].
    destruct file, cok, pok; reflexivity.
Qed.

Lemma pipeline_cache_lazy_init_witness :
  fst (load_cache env_all_ok) = inr (mkCache None).
Proof.
  destruct pipeline_cache_lazy_init as [H _].
  apply (H env_all_ok). reflexivity.
Defined.

End CacheFacts.

(** ** Orchestrator and render workers *)

Section EngineFacts.
Import Engine.

Lemma nth_error_send_at {A} (i : nat) (x : A) chs j :
  nth_error (send_at i x chs) j =
    if Nat.eqb j i then option_map (fun c => c ++ [x]) (nth_error chs j)
    else nth_error chs j.
Proof.
  revert i j; induction chs as [|c t IH]; intros i j.
  - destruct i, j; simpl; try destruct (_ =? _); reflexivity.
  - destruct i as [|i], j as [|j]; simpl; try reflexivity.
    rewrite IH. reflexivity.
Qed.

Lemma length_send_at {A} (i : nat) (x : A) chs :
  length (send_at i x chs) = length chs.
Proof.
  revert i; induction chs as [|c t IH]; intros [|i]; simpl; auto.
Qed.

Lemma nth_error_send_each_from {A} k (f : nat -> A) chs j :
  nth_error (send_each_from k f chs) j =
    option_map (fun c => c ++ [f (k + j)]) (nth_error chs j).
Proof.
  revert k j; induction chs as [|c t IH]; intros k j.
  - destruct j; reflexivity.
  - destruct j as [|j]; simpl.
    + rewrite Nat.add_0_r. reflexivity.
    + rewrite IH. rewrite Nat.add_succ_r. reflexivity.
Qed.

Lemma length_send_each_from {A} k (f : nat -> A) chs :
  length (send_each_from k f chs) = length chs.
Proof.
  revert k; induction chs as [|c t IH]; intro k; simpl; auto.
Qed.


Lemma begin_rendering_go_shape fuel acq e e' :
  begin_rendering_go fuel acq e = Some e' ->
  exists e2, same_frame e e2 /\
    e' = with_channels (send_each (begin_message (frame_count e2 mod FRAMES_IN_FLIGHT))
                                  (render_channels e2)) e2.
Proof.
  revert acq e e'; induction fuel as [|fuel IH]; intros acq e e' H;
    cbn [begin_rendering_go] in H; [discriminate|].
  destruct (nth_error (sync_data e) (frame_count e mod FRAMES_IN_FLIGHT))
    as [r|]; [|discriminate].
  destruct r; cbn [RenderResult_eqb] in H; [discriminate| |].
  - destruct acq as [|a acq']; [discriminate|].
    destruct a as [idx [|]|[| |]]; try discriminate.
    + apply IH in H. destruct H as [e2 [[H1 [H2 H3]] He]].
      exists e2. split; [|exact He]. repeat split; simpl in *; assumption.
    + injection H as <-.
      exists (with_image_index idx
                (with_sync (set_nth (frame_count e mod FRAMES_IN_FLIGHT) NotDone
                                    (sync_data e)) e)).
      split; [repeat split | reflexivity].
    + apply IH in H. destruct H as [e2 [[H1 [H2 H3]] He]].
      exists e2. split; [|exact He]. repeat split; simpl in *; assumption.
    + apply IH in H. destruct H as [e2 [[H1 [H2 H3]] He]].
      exists e2. split; [|exact He]. repeat split; simpl in *; assumption.
  - apply IH in H. destruct H as [e2 [[H1 [H2 H3]] He]].
    exists e2. split; [|exact He]. repeat split; simpl in *; assumption.
Qed.

Lemma begin_rendering_shape acq e e' :
  begin_rendering acq e = Some e' ->
  exists e2, same_frame e e2 /\
    e' = with_channels (send_each (begin_message (frame_count e2 mod FRAMES_IN_FLIGHT))
                                  (render_channels e2)) e2.
Proof. apply begin_rendering_go_shape. Qed.

(** What one [render] call does, whenever it returns. *)
Lemma render_shape m mt t e e' :
  render m mt t e = Some e' ->
  current_thread e' < length (render_channels e) /\
  render_channels e' = send_at (current_thread e') (Render m mt t) (render_channels e) /\
  frame_count e' = frame_count e /\
  current_thread e' = (if negb (ptr_eq (mesh_addr m) (last_mesh e)
                                && ptr_eq (material_addr mt) (last_material e))
                       then (current_thread e + 1) mod length (render_channels e)
                       else current_thread e) /\
  last_mesh e' = (if negb (ptr_eq (mesh_addr m) (last_mesh e)
                           && ptr_eq (material_addr mt) (last_material e))
                  then Some (mesh_addr m) else last_mesh e) /\
  last_material e' = (if negb (ptr_eq (mesh_addr m) (last_mesh e)
                               && ptr_eq (material_addr mt) (last_material e))
                      then Some (material_addr mt) else last_material e).
Proof.
  unfold render.
  destruct (negb (ptr_eq (mesh_addr m) (last_mesh e)
                  && ptr_eq (material_addr mt) (last_material e))).
  - destruct (Nat.eqb_spec (length (render_channels e)) 0) as [Hz|Hz];
      [discriminate|]. simpl.
    destruct (nth_error (render_channels e) ((current_thread e + 1) mod length (render_channels e)))
      eqn:Hn; [|discriminate].
    intros H; injection H as <-. simpl.
    repeat split; try reflexivity.
    apply Nat.mod_upper_bound. exact Hz.
  - simpl. destruct (nth_error (render_channels e) (current_thread e)) eqn:Hn;
      [|discriminate].
    intros H; injection H as <-. simpl.
    repeat split; try reflexivity.
    apply nth_error_Some. rewrite Hn. discriminate.
Qed.

Lemma render_all_frame_count draws e e' :
  render_all draws e = Some e' -> frame_count e' = frame_count e.
Proof.
  revert e; induction draws as [|[[m mt] t] rest IH]; intros e H; simpl in H.
  - injection H as <-. reflexivity.
  - destruct (render m mt t e) as [e1|] eqn:He; [|discriminate].
    apply render_shape in He. apply IH in H. destruct He as [_ [_ [He _]]].
    congruence.
Qed.

(** [render] returns when there is a channel and the selected one exists. *)
Lemma render_shape_total m mt t e
  (Hn : 0 < length (render_channels e))
  (Hct : current_thread e < length (render_channels e)) :
  exists e', render m mt t e = Some e'.
Proof.
  unfold render.
  destruct (negb (ptr_eq (mesh_addr m) (last_mesh e)
                  && ptr_eq (material_addr mt) (last_material e))).
  - destruct (Nat.eqb_spec (length (render_channels e)) 0) as [Hz|Hz]; [lia|].
    simpl.
    destruct (nth_error (render_channels e)
                ((current_thread e + 1) mod length (render_channels e))) eqn:E.
    + eauto.
    + apply nth_error_None in E.
      pose proof (Nat.mod_upper_bound (current_thread e + 1)
                    (length (render_channels e)) Hz). lia.
  - simpl. destruct (nth_error (render_channels e) (current_thread e)) eqn:E.
    + eauto.
    + apply nth_error_None in E. lia.
Qed.

(** C4: when [current_thread] indexes the non-empty channel list,
    [render] compares the mesh and material addresses with the last pair
    it saw; on any change it advances [current_thread] by one modulo the
    number of channels and records the new pair, otherwise it keeps both;
    in every case it appends exactly one [Render] to the channel of the
    selected worker and leaves the other channels unchanged. *)
Theorem render_round_robin m mt t e
  (Hn : 0 < length (render_channels e))
  (Hct : current_thread e < length (render_channels e)) :
  let changed := negb (ptr_eq (mesh_addr m) (last_mesh e)
                       && ptr_eq (material_addr mt) (last_material e)) in
  let ct := if changed then (current_thread e + 1) mod length (render_channels e)
            else current_thread e in
  exists e', render m mt t e = Some e' /\
    current_thread e' = ct /\
    last_mesh e' = (if changed then Some (mesh_addr m) else last_mesh e) /\
    last_material e' = (if changed then Some (material_addr mt) else last_material e) /\
    (forall j, nth_error (render_channels e') j =
       if Nat.eqb j ct
       then option_map (fun c => c ++ [Render m mt t]) (nth_error (render_channels e) j)
       else nth_error (render_channels e) j).
Proof.
  cbv zeta.
  assert (Hex := render_shape_total m mt t e Hn Hct).
  destruct Hex as [e' He']. exists e'. split; [exact He'|].
  destruct (render_shape _ _ _ _ _ He') as [_ [Hch [_ [Hct' [Hlm Hlmt]]]]].
  split; [exact Hct'|]. split; [exact Hlm|]. split; [exact Hlmt|].
  intro j. rewrite Hch, nth_error_send_at, Hct'. reflexivity.
Qed.

Lemma render_round_robin_witness :
  0 < length (render_channels (engine_new 2 ROk)) /\
  current_thread (engine_new 2 ROk) < length (render_channels (engine_new 2 ROk)) /\
  exists e', render (mkMesh 1 36) (mkMaterial 2) 0 (engine_new 2 ROk) = Some e' /\
             current_thread e' = 1.
Proof.
  assert (Hn : 0 < length (render_channels (engine_new 2 ROk))) by (simpl; lia).
  assert (Hct : current_thread (engine_new 2 ROk) <
                length (render_channels (engine_new 2 ROk))) by (simpl; lia).
  split; [exact Hn|]. split; [exact Hct|].
  pose proof (render_round_robin (mkMesh 1 36) (mkMaterial 2) 0 _ Hn Hct) as H.
  cbv zeta in H. destruct H as [e' [He [Hc _]]].
  exists e'. split; [exact He|]. rewrite Hc. reflexivity.
Defined.

(** C10 (counterexample): with a single render thread (N = 1, which
    [max(1, available_parallelism / 2)] allows), the first [render] after
    creation stays on worker 0 instead of moving to worker 1. *)
Lemma first_render_single_worker_cex :
  exists e', render (mkMesh 1 36) (mkMaterial 2) 0 (engine_new 1 ROk) = Some e' /\
             current_thread e' = 0 /\ current_thread e' <> 1.
Proof. eexists. split; [reflexivity|]. simpl. split; [reflexivity|discriminate]. Qed.

(** C10 (amended): [begin_rendering] and [end_rendering] leave the
    batching state ([last_mesh], [last_material], [current_thread])
    unchanged, so it carries over from one frame to the next; the first
    [render] after creation records its pair and sets [current_thread] to
    [1 mod N]: worker 1 when N >= 2, worker 0 when N = 1. *)
Theorem batching_state_across_frames :
  (forall acq e e', begin_rendering acq e = Some e' ->
     batching_state e' = batching_state e) /\
  (forall e, batching_state (end_rendering e) = batching_state e) /\
  (forall n sync0 m mt t, 0 < n ->
     exists e', render m mt t (engine_new n sync0) = Some e' /\
       current_thread e' = 1 mod n /\
       last_mesh e' = Some (mesh_addr m) /\ last_material e' = Some (material_addr mt)).
Proof.
  split; [|split].
  - intros acq e e' H. apply begin_rendering_shape in H.
    destruct H as [e2 [[_ [_ Hb]] ->]]. exact Hb.
  - reflexivity.
  - intros n sync0 m mt t Hn.
    assert (Hl : length (render_channels (engine_new n sync0)) = n)
      by (simpl; apply repeat_length).
    assert (Hc : 0 < length (render_channels (engine_new n sync0))) by lia.
    assert (Hct : current_thread (engine_new n sync0) <
                  length (render_channels (engine_new n sync0))) by (rewrite Hl; simpl; lia).
    destruct (render_shape_total m mt t _ Hc Hct) as [e' He].
    exists e'. split; [exact He|].
    destruct (render_shape _ _ _ _ _ He) as [_ [_ [_ [H1 [H2 H3]]]]].
    rewrite H1, H2, H3, Hl. simpl. repeat split.
Qed.

Lemma batching_state_across_frames_witness :
  exists e', render (mkMesh 1 36) (mkMaterial 2) 0 (engine_new 2 ROk) = Some e' /\
    current_thread e' = 1 mod 2 /\
    last_mesh e' = Some 1 /\ last_material e' = Some 2.
Proof.
  destruct batching_state_across_frames as [_ [_ H]].
  apply (H 2 ROk (mkMesh 1 36) (mkMaterial 2) 0). lia.
Defined.


Lemma in_frame_send_at bs cs i m mt t :
  Forall2 in_frame bs cs -> Forall2 in_frame bs (send_at i (Render m mt t) cs).
Proof.
  intros H; revert i; induction H as [|b c bs cs Hbc H IH]; intros i; simpl.
  - destruct i; constructor.
  - destruct i as [|i]; constructor; auto.
    destruct Hbc as [cb [d [rs [-> Hrs]]]].
    exists cb, d, (rs ++ [Render m mt t]). split.
    + rewrite <- app_assoc. reflexivity.
    + apply Forall_app. split; [exact Hrs|]. constructor; [exact I|constructor].
Qed.

Lemma in_frame_render_all draws bs e e' :
  Forall2 in_frame bs (render_channels e) ->
  render_all draws e = Some e' ->
  Forall2 in_frame bs (render_channels e').
Proof.
  revert e; induction draws as [|[[m mt] t] rest IH]; intros e Hinv H; simpl in H.
  - injection H as <-. exact Hinv.
  - destruct (render m mt t e) as [e1|] eqn:He; [|discriminate].
    apply (IH e1); [|exact H].
    destruct (render_shape _ _ _ _ _ He) as [_ [Hch _]]. rewrite Hch.
    apply in_frame_send_at. exact Hinv.
Qed.

Lemma in_frame_send_begin k slot cs :
  Forall2 in_frame cs (send_each_from k (begin_message slot) cs).
Proof.
  revert k; induction cs as [|c cs IH]; intro k; simpl; constructor; auto.
  exists (mkCB slot k), slot, []. split; [reflexivity|constructor].
Qed.

Lemma renders_then_end_app rs :
  Forall is_render rs -> renders_then_end (rs ++ [End]) = true.
Proof.
  induction 1 as [|r rs Hr _ IH]; [reflexivity|].
  destruct r; try contradiction. simpl.
  destruct (rs ++ [End]) eqn:E; [destruct rs; discriminate|]. exact IH.
Qed.

Lemma in_frame_send_end k bs cs :
  Forall2 in_frame bs cs ->
  Forall2 (fun before after => exists seg, after = before ++ seg /\ one_frame seg = true)
          bs (send_each_from k (fun _ => End) cs).
Proof.
  intros H; revert k; induction H as [|b c bs cs Hbc H IH]; intro k; simpl;
    constructor; auto.
  destruct Hbc as [cb [d [rs [-> Hrs]]]].
  exists (Begin cb d :: rs ++ [End]). split.
  - rewrite <- app_assoc. reflexivity.
  - simpl. apply renders_then_end_app. exact Hrs.
Qed.


Lemma run_worker_app l1 l2 w :
  run_worker (l1 ++ l2) w = obind (run_worker l1 w) (run_worker l2).
Proof.
  revert w; induction l1 as [|c l1 IH]; intro w; simpl; [reflexivity|].
  destruct (render_thread_step w c); simpl; [apply IH|reflexivity].
Qed.

Lemma ptr_eq_refl a : ptr_eq a (Some a) = true.
Proof. simpl. apply Nat.eqb_refl. Qed.

(** A [Render] on a worker holding a buffer always succeeds and keeps it. *)
Lemma render_step_keeps_cmd w cb m mt t :
  w_cmd w = Some cb ->
  exists w', render_thread_step w (Render m mt t) = Some w' /\ w_cmd w' = Some cb.
Proof.
  intros Hc. destruct w as [c lm lmat g calls]; simpl in Hc; subst c.
  simpl. destruct (negb (ptr_eq (mesh_addr m) lm));
  destruct (negb (ptr_eq (material_addr mt) lmat)); eauto.
Qed.

Lemma renders_keep_cmd rs w cb :
  w_cmd w = Some cb -> Forall is_render rs ->
  exists w', run_worker rs w = Some w' /\ w_cmd w' = Some cb.
Proof.
  intros Hc Hrs; revert w Hc; induction Hrs as [|r rs Hr _ IH]; intros w Hc.
  - exists w; auto.
  - destruct r as [| m mt t |]; try contradiction.
    destruct (render_step_keeps_cmd w cb m mt t Hc) as [w1 [H1 Hc1]].
    cbn [run_worker]. rewrite H1. simpl. apply IH. exact Hc1.
Qed.

Lemma renders_then_end_inv l :
  renders_then_end l = true -> exists rs, l = rs ++ [End] /\ Forall is_render rs.
Proof.
  induction l as [|c l IH]; simpl; [discriminate|].
  destruct c.
  - discriminate.
  - intro H. destruct (IH H) as [rs [-> Hrs]].
    exists (Render mesh material transform :: rs). split; [reflexivity|].
    constructor; [exact I|exact Hrs].
  - destruct l; [|discriminate]. intros _. exists []. split; [reflexivity|constructor].
Qed.

(** A worker that handles a whole frame ends it idle. *)
Lemma worker_frame_idle w seg :
  one_frame seg = true ->
  exists w', run_worker seg w = Some w' /\ idle w'.
Proof.
  destruct seg as [|[cb d| |] rest]; simpl; try discriminate.
  intros H. apply renders_then_end_inv in H. destruct H as [rs [-> Hrs]].
  rewrite run_worker_app.
  destruct (renders_keep_cmd rs
              (mkWorker (Some cb) (w_last_mesh w) (w_last_material w) d
                        (w_calls w ++ [BeginCommandBuffer cb])) cb eq_refl Hrs)
    as [w1 [H1 Hc1]].
  rewrite H1. simpl. rewrite Hc1. eexists. split; [reflexivity|].
  repeat split.
Qed.

Lemma run_frame_channels acq draws e e' :
  run_frame acq draws e = Some e' ->
  Forall2 (fun before after => exists seg, after = before ++ seg /\ one_frame seg = true)
          (render_channels e) (render_channels e').
Proof.
  intros H. unfold run_frame in H.
  destruct (begin_rendering acq e) as [e1|] eqn:Hb; [|discriminate]. simpl in H.
  destruct (render_all draws e1) as [e2|] eqn:Hr; [|discriminate]. simpl in H.
  injection H as <-.
  apply begin_rendering_shape in Hb. destruct Hb as [e0 [[_ [Hch _]] ->]].
  assert (Hinv : Forall2 in_frame (render_channels e) (render_channels e2)).
  { eapply in_frame_render_all; [|exact Hr]. simpl. unfold send_each.
    rewrite Hch. apply in_frame_send_begin. }
  apply in_frame_send_end. exact Hinv.
Qed.

(** C1: over one [begin_rendering], [render]*, [end_rendering] cycle,
    every channel receives exactly one [Begin], then only [Render]s, then
    exactly one [End], and nothing else; each [render] call appends exactly
    one [Render] to exactly one channel and leaves the others unchanged. *)
Theorem frame_protocol :
  (forall acq draws e e', run_frame acq draws e = Some e' ->
     Forall2 (fun before after => exists seg, after = before ++ seg /\ one_frame seg = true)
             (render_channels e) (render_channels e')) /\
  (forall m mt t e e', render m mt t e = Some e' ->
     exists i, i < length (render_channels e) /\
       forall j, nth_error (render_channels e') j =
         if Nat.eqb j i
         then option_map (fun c => c ++ [Render m mt t]) (nth_error (render_channels e) j)
         else nth_error (render_channels e) j).
Proof.
  split.
  - exact run_frame_channels.
  - intros m mt t e e' H. destruct (render_shape _ _ _ _ _ H) as [Hlt [Hch _]].
    exists (current_thread e'). split; [exact Hlt|].
    intro j. rewrite Hch, nth_error_send_at. reflexivity.
Qed.

Lemma frame_protocol_witness :
  exists e', run_frame [AcquireOk 0 false] [(mkMesh 1 36, mkMaterial 2, 0)]
                       (engine_new 2 ROk) = Some e' /\
    Forall2 (fun before after => exists seg, after = before ++ seg /\ one_frame seg = true)
            (render_channels (engine_new 2 ROk)) (render_channels e').
Proof.
  eexists. split; [reflexivity|].
  destruct frame_protocol as [H _].
  apply (H [AcquireOk 0 false] [(mkMesh 1 36, mkMaterial 2, 0)]). reflexivity.
Defined.

Lemma quiescent_run_frame acq draws e e' :
  quiescent e -> run_frame acq draws e = Some e' -> quiescent e'.
Proof.
  intros Hq H. apply run_frame_channels in H. unfold quiescent in *.
  induction H as [|b a bs as_ Hba _ IH]; [constructor|].
  inversion Hq as [|? ? [w [Hw Hidle]] Hq']; subst.
  constructor; [|apply IH; exact Hq'].
  destruct Hba as [seg [-> Hseg]].
  unfold worker_of in *. rewrite run_worker_app, Hw. simpl.
  apply worker_frame_idle. exact Hseg.
Qed.

Lemma quiescent_engine_new n sync0 : quiescent (engine_new n sync0).
Proof.
  unfold quiescent. simpl. apply Forall_forall. intros x Hx.
  apply repeat_spec in Hx. subst x. exists worker_init. repeat split.
Qed.

Lemma run_frame_frame_count acq draws e e' :
  run_frame acq draws e = Some e' -> frame_count e' = frame_count e + 1.
Proof.
  intros H. unfold run_frame in H.
  destruct (begin_rendering acq e) as [e1|] eqn:Hb; [|discriminate]. simpl in H.
  destruct (render_all draws e1) as [e2|] eqn:Hr; [|discriminate]. simpl in H.
  injection H as <-. apply render_all_frame_count in Hr.
  apply begin_rendering_shape in Hb. destruct Hb as [e0 [[Hf _] ->]].
  simpl. rewrite Hr. simpl. rewrite Hf. reflexivity.
Qed.

Lemma render_all_wf draws e e' :
  current_thread e < length (render_channels e) ->
  render_all draws e = Some e' ->
  current_thread e' < length (render_channels e') /\
  length (render_channels e') = length (render_channels e).
Proof.
  revert e; induction draws as [|[[m mt] t] rest IH]; intros e Hct H; simpl in H.
  - injection H as <-. auto.
  - destruct (render m mt t e) as [e1|] eqn:He; [|discriminate].
    destruct (render_shape _ _ _ _ _ He) as [Hlt [Hch _]].
    assert (Hl : length (render_channels e1) = length (render_channels e))
      by (rewrite Hch; apply length_send_at).
    destruct (IH e1) as [H1 H2]; [lia|exact H|]. split; [exact H1|congruence].
Qed.

Lemma run_frame_wf acq draws e e' :
  current_thread e < length (render_channels e) ->
  run_frame acq draws e = Some e' ->
  current_thread e' < length (render_channels e') /\
  length (render_channels e') = length (render_channels e).
Proof.
  intros Hct H. unfold run_frame in H.
  destruct (begin_rendering acq e) as [e1|] eqn:Hb; [|discriminate]. simpl in H.
  destruct (render_all draws e1) as [e2|] eqn:Hr; [|discriminate]. simpl in H.
  injection H as <-.
  apply begin_rendering_shape in Hb. destruct Hb as [e0 [[_ [Hch Hbs]] ->]].
  unfold batching_state in Hbs. injection Hbs as _ _ Hct0.
  apply render_all_wf in Hr.
  - simpl in *. unfold send_each in *. rewrite !length_send_each_from in *.
    rewrite Hch in Hr. exact Hr.
  - simpl. unfold send_each. rewrite length_send_each_from, Hch. congruence.
Qed.

(** A frame with two draws of the same pair, from quiescent workers. *)
Lemma same_pair_frame acq m mt t1 t2 e e' :
  quiescent e ->
  current_thread e < length (render_channels e) ->
  run_frame acq [(m, mt, t1); (m, mt, t2)] e = Some e' ->
  second_render_no_rebind e e' m mt t1 t2.
Proof.
  intros Hq Hct H. unfold run_frame in H.
  destruct (begin_rendering acq e) as [e1|] eqn:Hb; [|discriminate]. simpl in H.
  destruct (render m mt t1 e1) as [ea|] eqn:Ha; [|discriminate]. simpl in H.
  destruct (render m mt t2 ea) as [eb|] eqn:Hb2; [|discriminate]. simpl in H.
  injection H as <-.
  apply begin_rendering_shape in Hb. destruct Hb as [e0 [[_ [Hch _]] ->]].
  destruct (render_shape _ _ _ _ _ Ha) as [Hlta [Hcha [_ [_ [Hlma Hlmta]]]]].
  destruct (render_shape _ _ _ _ _ Hb2) as [_ [Hchb [_ [Hctb _]]]].
  assert (Hsame : ptr_eq (mesh_addr m) (last_mesh ea)
                  && ptr_eq (material_addr mt) (last_material ea) = true).
  { rewrite Hlma, Hlmta.
    destruct (ptr_eq (mesh_addr m) (last_mesh _)
              && ptr_eq (material_addr mt) (last_material _)) eqn:E; cbn [negb].
    - exact E.
    - rewrite !ptr_eq_refl. reflexivity. }
  rewrite Hsame in Hctb. simpl in Hctb.
  simpl in Hlta. unfold send_each in Hlta. rewrite length_send_each_from, Hch in Hlta.
  set (i := current_thread ea) in *.
  destruct (nth_error (render_channels e) i) as [log|] eqn:Hlog.
  2:{ apply nth_error_None in Hlog. lia. }
  set (slot := frame_count e0 mod FRAMES_IN_FLIGHT) in *.
  exists i, log, (mkCB slot i), slot.
  unfold quiescent in Hq. rewrite Forall_forall in Hq.
  destruct (Hq log (nth_error_In _ _ Hlog)) as [[c lm lmat g calls] [Hw [Hc [Hm Hmt]]]].
  simpl in Hc, Hm, Hmt; subst c lm lmat.
  unfold worker_of in Hw.
  eexists. split; [exact Hlog|]. split; [|split].
  - simpl. unfold send_each. rewrite nth_error_send_each_from, Hchb, Hctb.
    rewrite nth_error_send_at, Nat.eqb_refl, Hcha, nth_error_send_at, Nat.eqb_refl.
    simpl. unfold send_each. rewrite nth_error_send_each_from, Hch, Hlog. simpl.
    rewrite <- !app_assoc. reflexivity.
  - rewrite run_worker_app, Hw. simpl. reflexivity.
  - unfold no_rebind_on. simpl. rewrite !Nat.eqb_refl. simpl.
    eexists. exists [PushConstants (mkCB slot i) (material_addr mt) t2;
                     DrawIndexed (mkCB slot i) (index_count m)].
    split; [reflexivity|]. split; [|reflexivity].
    rewrite <- !app_assoc. reflexivity.
Qed.

(** C2: starting from workers that are between frames, two consecutive
    frames that each draw the same (mesh, material) pair twice send both
    draws of a frame to one worker, which handles the second draw without
    binding a mesh, a pipeline or a descriptor set; each [end_rendering]
    increments [frame_count] by exactly one. *)
Theorem same_pair_no_rebind acq1 acq2 m mt t1 t2 t3 t4 e e1 e2
  (Hq : quiescent e)
  (Hct : current_thread e < length (render_channels e))
  (H1 : run_frame acq1 [(m, mt, t1); (m, mt, t2)] e = Some e1)
  (H2 : run_frame acq2 [(m, mt, t3); (m, mt, t4)] e1 = Some e2) :
  second_render_no_rebind e e1 m mt t1 t2 /\
  second_render_no_rebind e1 e2 m mt t3 t4 /\
  frame_count e1 = frame_count e + 1 /\
  frame_count e2 = frame_count e1 + 1.
Proof.
  split; [|split; [|split]].
  - eapply same_pair_frame; eassumption.
  - eapply same_pair_frame; [| |exact H2].
    + eapply quiescent_run_frame; eassumption.
    + eapply run_frame_wf; eassumption.
  - eapply run_frame_frame_count; eassumption.
  - eapply run_frame_frame_count; eassumption.
Qed.

Lemma same_pair_no_rebind_witness :
  exists e1 e2,
    run_frame [AcquireOk 0 false] [(mkMesh 1 36, mkMaterial 2, 0); (mkMesh 1 36, mkMaterial 2, 1)]
              (engine_new 2 ROk) = Some e1 /\
    run_frame [AcquireOk 1 false] [(mkMesh 1 36, mkMaterial 2, 2); (mkMesh 1 36, mkMaterial 2, 3)]
              e1 = Some e2 /\
    second_render_no_rebind (engine_new 2 ROk) e1 (mkMesh 1 36) (mkMaterial 2) 0 1 /\
    second_render_no_rebind e1 e2 (mkMesh 1 36) (mkMaterial 2) 2 3 /\
    frame_count e1 = frame_count (engine_new 2 ROk) + 1 /\
    frame_count e2 = frame_count e1 + 1.
Proof.
  eexists. eexists. split; [reflexivity|]. split; [reflexivity|].
  apply (same_pair_no_rebind [AcquireOk 0 false] [AcquireOk 1 false]).
  - apply quiescent_engine_new.
  - simpl. lia.
  - reflexivity.
  - reflexivity.
Defined.


Lemma pipeline_binds_app l1 l2 :
  pipeline_binds (l1 ++ l2) = pipeline_binds l1 + pipeline_binds l2.
Proof. unfold pipeline_binds. rewrite filter_app, length_app. reflexivity. Qed.

Lemma ptr_eq_some a o : ptr_eq a o = true -> o = Some a.
Proof.
  destruct o as [b|]; simpl; [|discriminate].
  intros H. apply Nat.eqb_eq in H. subst. reflexivity.
Qed.

(** A worker holding a buffer binds a pipeline once per material change. *)
Lemma run_renders_binds draws w cb :
  w_cmd w = Some cb ->
  exists w', run_worker (map draw_render draws) w = Some w' /\ w_cmd w' = Some cb /\
    pipeline_binds (w_calls w') =
      pipeline_binds (w_calls w) + material_changes (w_last_material w)
                                                    (map draw_material draws).
Proof.
  revert w; induction draws as [|[[m mt] t] rest IH]; intros w Hc.
  - exists w. simpl. rewrite Nat.add_0_r. auto.
  - destruct w as [c lm lmat g calls]; simpl in Hc; subst c.
    cbn [map run_worker]. unfold draw_render, obind, render_thread_step, cull_test.
    cbn [fst snd w_cmd w_last_mesh w_last_material w_calls w_global_descriptor].
    cbn [material_changes]. unfold draw_material. cbn [fst snd].
    destruct (negb (ptr_eq (mesh_addr m) lm)) eqn:Em;
    destruct (ptr_eq (material_addr mt) lmat) eqn:Emt; cbn [negb];
      match goal with
      | |- exists w', run_worker _ ?w0 = Some w' /\ _ =>
          destruct (IH w0 eq_refl) as [w' [Hw' [Hc' Hp']]]
      end;
      exists w'; (split; [exact Hw'|split; [exact Hc'|]]); rewrite Hp';
      cbn [w_calls w_last_material]; unfold draw_material in *;
      rewrite !pipeline_binds_app; cbn; try lia;
      apply ptr_eq_some in Emt; subst lmat; lia.
Qed.

Lemma material_changes_sorted_cons a l :
  StronglySorted le (a :: l) ->
  material_changes (Some a) l + 1 = length (nodup Nat.eq_dec (a :: l)).
Proof.
  revert a; induction l as [|b l IH]; intros a Hs.
  - reflexivity.
  - inversion Hs as [|? ? Hs' Hab]; subst.
    inversion Hab as [|? ? Hab' Hal]; subst.
    specialize (IH b Hs').
    cbn [material_changes ptr_eq]. unfold addr in *.
    change (nodup Nat.eq_dec (a :: b :: l))
      with (if in_dec Nat.eq_dec a (b :: l) then nodup Nat.eq_dec (b :: l)
            else a :: nodup Nat.eq_dec (b :: l)).
    destruct (Nat.eqb_spec b a) as [->|Hne]; cbv iota.
    + destruct (in_dec Nat.eq_dec a (a :: l)) as [_|Hn]; [exact IH|].
      exfalso. apply Hn. left. reflexivity.
    + destruct (in_dec Nat.eq_dec a (b :: l)) as [Hin|_]; [|cbn [length]; rewrite <- IH; lia].
      exfalso. inversion Hs' as [|? ? _ Hbl]; subst.
      destruct Hin as [->|Hin]; [congruence|].
      rewrite Forall_forall in Hbl. specialize (Hbl a Hin). lia.
Qed.

Lemma material_changes_sorted l :
  StronglySorted le l -> material_changes None l = length (nodup Nat.eq_dec l).
Proof.
  destruct l as [|a l]; [reflexivity|].
  intros Hs. rewrite <- material_changes_sorted_cons by exact Hs.
  cbn [material_changes ptr_eq]. unfold addr in *. lia.
Qed.

Lemma draw_le_trans : Relations_1.Transitive draw_le.
Proof. unfold draw_le. intros x y z. lia. Qed.

Lemma sorted_draws_materials draws :
  Sorted draw_le draws -> StronglySorted le (map draw_material draws).
Proof.
  intros Hs. apply Sorted_StronglySorted in Hs; [|exact draw_le_trans].
  induction Hs as [|d rest _ IH Hd]; simpl; constructor; [exact IH|].
  apply Forall_map. eapply Forall_impl; [|exact Hd].
  unfold draw_le. intros x. lia.
Qed.

Lemma render_all_single draws e e' c :
  render_channels e = [c] -> render_all draws e = Some e' ->
  render_channels e' = [c ++ map draw_render draws].
Proof.
  revert e c; induction draws as [|[[m mt] t] rest IH]; intros e c Hc H; simpl in H.
  - injection H as <-. rewrite app_nil_r. exact Hc.
  - destruct (render m mt t e) as [e1|] eqn:He; [|discriminate].
    destruct (render_shape _ _ _ _ _ He) as [Hlt [Hch _]].
    rewrite Hc in Hlt, Hch. simpl in Hlt.
    assert (H0 : current_thread e1 = 0) by lia. rewrite H0 in Hch. simpl in Hch.
    rewrite (IH e1 (c ++ [Render m mt t]) Hch H).
    rewrite <- app_assoc. reflexivity.
Qed.

(** C3 (counterexample): with two workers, a draw list sorted by
    (material, mesh) that uses one material with two meshes records two
    pipeline binds: the mesh change moves the second draw to the other
    worker, which binds the material again. *)
Lemma sorted_draws_rebinds_cex :
  let draws := [(mkMesh 1 36, mkMaterial 10, 0); (mkMesh 2 36, mkMaterial 10, 0)] in
  Sorted draw_le draws /\ distinct_materials draws = 1 /\
  exists e', run_frame [AcquireOk 0 false] draws (engine_new 2 ROk) = Some e' /\
             total_pipeline_binds (render_channels e') = Some 2.
Proof.
  intros draws. split; [|split].
  - apply Sorted_cons; [apply Sorted_cons; constructor|].
    constructor. right. split; [reflexivity|unfold draw_mesh; cbn; lia].
  - reflexivity.
  - eexists. split; reflexivity.
Qed.

(** C3 (amended): with a single worker, between frames, a frame whose
    draw list is sorted by (material, mesh) adds exactly as many pipeline
    binds as the list has distinct materials. *)
Theorem sorted_draws_single_worker acq draws e e' k
  (H1 : length (render_channels e) = 1)
  (Hq : quiescent e)
  (Hk : total_pipeline_binds (render_channels e) = Some k)
  (Hs : Sorted draw_le draws)
  (Hr : run_frame acq draws e = Some e') :
  total_pipeline_binds (render_channels e') = Some (k + distinct_materials draws).
Proof.
  unfold run_frame in Hr.
  destruct (begin_rendering acq e) as [e1|] eqn:Hb; [|discriminate]. simpl in Hr.
  destruct (render_all draws e1) as [e2|] eqn:Hr2; [|discriminate]. simpl in Hr.
  injection Hr as <-.
  apply begin_rendering_shape in Hb. destruct Hb as [e0 [[_ [Hch _]] ->]].
  destruct (render_channels e) as [|c [|c' cs]] eqn:Hc; simpl in H1; try lia.
  unfold quiescent in Hq. rewrite Hc in Hq.
  inversion Hq as [|? ? [w [Hw [Hwc [Hwm Hwmt]]]] _]; subst.
  cbn [total_pipeline_binds obind] in Hk. rewrite Hw in Hk. cbn [obind] in Hk.
  injection Hk as <-.
  apply render_all_single with (c := c ++ [begin_message (frame_count e0 mod FRAMES_IN_FLIGHT) 0])
    in Hr2.
  2:{ simpl. unfold send_each. rewrite Hch. reflexivity. }
  cbn [end_rendering render_channels]. rewrite Hr2. unfold send_each.
  cbn [send_each_from total_pipeline_binds]. unfold worker_of.
  rewrite !run_worker_app. unfold worker_of in Hw. rewrite Hw. cbn [obind].
  destruct w as [wc wm wmt g calls]. cbn in Hwc, Hwm, Hwmt. subst wc wm wmt.
  unfold begin_message. cbn [run_worker render_thread_step obind w_last_mesh
                               w_last_material w_calls].
  match goal with
  | |- obind (obind (run_worker _ ?w0) _) _ = _ =>
      destruct (run_renders_binds draws w0 _ eq_refl) as [w2 [Hw2 [Hc2 Hp2]]]
  end.
  rewrite Hw2. cbn [obind]. rewrite Hc2. cbn [obind w_calls].
  rewrite pipeline_binds_app, Hp2. cbn [w_calls w_last_material].
  rewrite material_changes_sorted by (apply sorted_draws_materials; exact Hs).
  rewrite pipeline_binds_app. unfold distinct_materials. cbn [pipeline_binds filter length is_bind_pipeline].
  f_equal. lia.
Qed.

Lemma sorted_draws_single_worker_witness :
  exists e', run_frame [AcquireOk 0 false]
               [(mkMesh 1 36, mkMaterial 10, 0); (mkMesh 2 36, mkMaterial 10, 0);
                (mkMesh 1 36, mkMaterial 11, 0)] (engine_new 1 ROk) = Some e' /\
    total_pipeline_binds (render_channels e') =
      Some (0 + distinct_materials
                  [(mkMesh 1 36, mkMaterial 10, 0); (mkMesh 2 36, mkMaterial 10, 0);
                   (mkMesh 1 36, mkMaterial 11, 0)]).
Proof.
  eexists. split; [reflexivity|].
  apply (sorted_draws_single_worker [AcquireOk 0 false] _ (engine_new 1 ROk)).
  - reflexivity.
  - apply quiescent_engine_new.
  - reflexivity.
  - apply Sorted_cons; [apply Sorted_cons; [apply Sorted_cons; constructor|]|].
    + constructor. left. unfold draw_material. cbn. lia.
    + constructor. right. split; [reflexivity|unfold draw_mesh; cbn; lia].
  - reflexivity.
Defined.

End EngineFacts.


(** ** Device and swapchain selection at initialization *)

Section DeviceInitFacts.
Import DeviceInit.

Lemma queue_family_loop_in (props : list QueueFamily) : forall index g0 p0 g p,
  queue_family_loop index props g0 p0 = (g, p) ->
  (g = g0 \/ exists k f, g = Some (index + k) /\ nth_error props k = Some f /\ qf_graphics f = true) /\
  (p = p0 \/ exists k f, p = Some (index + k) /\ nth_error props k = Some f /\ qf_present f = true).
Proof.
  induction props as [|x rest IH]; intros index g0 p0 g p H; cbn [queue_family_loop] in H.
  - injection H as <- <-. split; left; reflexivity.
  - set (g1 := if qf_graphics x then Some index else g0) in H.
    set (p1 := if qf_present x then Some index else p0) in H.
    assert (Hg1 : g1 = g0 \/ exists k f, g1 = Some (index + k) /\ nth_error (x :: rest) k = Some f /\ qf_graphics f = true).
    { unfold g1. destruct (qf_graphics x) eqn:E; [right; exists 0, x; rewrite Nat.add_0_r; auto|left; auto]. }
    assert (Hp1 : p1 = p0 \/ exists k f, p1 = Some (index + k) /\ nth_error (x :: rest) k = Some f /\ qf_present f = true).
    { unfold p1. destruct (qf_present x) eqn:E; [right; exists 0, x; rewrite Nat.add_0_r; auto|left; auto]. }
    destruct (is_some p1 && is_some g1).
    + injection H as <- <-. auto.
    + destruct (IH _ _ _ _ _ H) as [Hg Hp]. split.
      * destruct Hg as [->|(k & f & -> & Hk & Hf)]; [exact Hg1|].
        right. exists (S k), f. rewrite Nat.add_succ_r. auto.
      * destruct Hp as [->|(k & f & -> & Hk & Hf)]; [exact Hp1|].
        right. exists (S k), f. rewrite Nat.add_succ_r. auto.
Qed.

Lemma queue_family_loop_none (props : list QueueFamily) : forall index g0 p0,
  (fst (queue_family_loop index props g0 p0) = None <->
     g0 = None /\ existsb qf_graphics props = false) /\
  (snd (queue_family_loop index props g0 p0) = None <->
     p0 = None /\ existsb qf_present props = false).
Proof.
  induction props as [|x rest IH]; intros index g0 p0; cbn [queue_family_loop existsb].
  - cbn. tauto.
  - destruct (IH (S index) (if qf_graphics x then Some index else g0)
                (if qf_present x then Some index else p0)) as [Hg Hp].
    destruct (qf_graphics x), (qf_present x), g0, p0; cbn [is_some andb orb] in *; cbn [fst snd];
      rewrite ?Hg, ?Hp; split; split; intros H; try discriminate; try tauto;
      destruct H as [H1 H2]; discriminate.
Qed.

(** The indices returned by [get_queue_families] name existing families:
    the first supports graphics, the second can present. *)
Lemma get_queue_families_indices (props : list QueueFamily) (g p : nat) :
  get_queue_families props = inr (g, p) ->
  (exists f, nth_error props g = Some f /\ qf_graphics f = true) /\
  (exists f, nth_error props p = Some f /\ qf_present f = true).
Proof.
  unfold get_queue_families.
  destruct (queue_family_loop 0 props None None) as [g' p'] eqn:E.
  destruct (queue_family_loop_in props 0 None None g' p' E) as [Hg Hp].
  destruct g' as [g'|], p' as [p'|]; intros H; try discriminate.
  injection H as <- <-.
  destruct Hg as [Hg|(k & f & Hg & Hk & Hf)]; [discriminate|].
  destruct Hp as [Hp|(k' & f' & Hp & Hk' & Hf')]; [discriminate|].
  injection Hg as ->. injection Hp as ->. cbn. split; eauto.
Qed.

(** [get_queue_families] fails with the graphics-queue error exactly when
    no family supports graphics, with the presentation-queue error exactly
    when some family supports graphics but none can present, and succeeds
    exactly when both kinds of family exist. *)
Lemma get_queue_families_result (props : list QueueFamily) :
  (get_queue_families props = inl NoGraphicsQueue <->
     existsb qf_graphics props = false) /\
  (get_queue_families props = inl NoPresentQueue <->
     existsb qf_graphics props = true /\ existsb qf_present props = false) /\
  ((exists g p, get_queue_families props = inr (g, p)) <->
     existsb qf_graphics props = true /\ existsb qf_present props = true).
Proof.
  destruct (queue_family_loop_none props 0 None None) as [Hg Hp].
  unfold get_queue_families.
  destruct (queue_family_loop 0 props None None) as [g' p'] eqn:E. cbn [fst snd] in Hg, Hp.
  destruct (existsb qf_graphics props), (existsb qf_present props);
  destruct g' as [g'|], p' as [p'|];
    try (destruct (proj1 Hg eq_refl) as [_ Hf]; discriminate);
    try (destruct (proj1 Hp eq_refl) as [_ Hf]; discriminate);
    try (assert (Hc : @None nat = None /\ false = false) by auto;
         first [pose proof (proj2 Hg Hc) | pose proof (proj2 Hp Hc)]; discriminate);
    repeat split; intros; try discriminate; try tauto; eauto;
    try (destruct H as (? & ? & H); discriminate);
    try (destruct H as [H1 H2]; discriminate).
Qed.

(** A family supporting both graphics and presentation, found before any
    other presentation-capable family, serves both queues. *)
Lemma get_queue_families_shared (pre post : list QueueFamily) (f : QueueFamily) :
  (forall x, In x pre -> qf_present x = false) ->
  qf_graphics f = true -> qf_present f = true ->
  get_queue_families (pre ++ f :: post) = inr (length pre, length pre).
Proof.
  intros Hpre Hg Hp. unfold get_queue_families.
  assert (H : forall index g0,
    queue_family_loop index (pre ++ f :: post) g0 None =
    (Some (index + length pre), Some (index + length pre))).
  { induction pre as [|x pre IH]; intros index g0; cbn [app queue_family_loop length].
    - rewrite Hg, Hp, Nat.add_0_r. reflexivity.
    - rewrite (Hpre x (or_introl eq_refl)). cbn [is_some andb].
      rewrite IH by (intros y Hy; apply Hpre; right; exact Hy).
      f_equal; f_equal; lia. }
  rewrite H. reflexivity.
Qed.

Lemma queue_scan_spec (props : list QueueFamily) : forall hg hp,
  let '(g, p) := queue_scan props hg hp in
  p && g = (hg || existsb qf_graphics props) && (hp || existsb qf_present props).
Proof.
  induction props as [|x rest IH]; intros hg hp; cbn [queue_scan existsb].
  - rewrite !orb_false_r. apply andb_comm.
  - destruct ((hg || qf_graphics x) && (hp || qf_present x)) eqn:E.
    + apply andb_true_iff in E as [E1 E2].
      rewrite !orb_assoc, E1, E2. reflexivity.
    + specialize (IH (hg || qf_graphics x) (hp || qf_present x)).
      destruct (queue_scan rest _ _) as [g p]. rewrite IH, !orb_assoc. reflexivity.
Qed.




(** A device passes the filters of [get_physical_device] iff it supports
    dynamic rendering, its extension list could be read and contains every
    required extension, and it has a graphics family and a presenting
    family (possibly the same one). *)
Lemma device_accepted_iff (extensions : list ExtensionName) (d : PhysicalDevice) :
  device_accepted extensions d = true <->
  dev_dynamic_rendering d = true /\
  (exists props, dev_extensions d = Some props /\
                 forall ext, In ext extensions -> In ext props) /\
  (exists f, In f (dev_families d) /\ qf_graphics f = true) /\
  (exists f, In f (dev_families d) /\ qf_present f = true).
Proof.
  unfold device_accepted, has_queues, is_valid_device.
  pose proof (queue_scan_spec (dev_families d) false false) as Hq.
  destruct (queue_scan (dev_families d) false false) as [g p]. cbn [orb] in Hq.
  rewrite Hq, !andb_true_iff, !existsb_exists.
  destruct (dev_dynamic_rendering d); cbn [negb].
  2: { split; [intros [H _]; discriminate|intros [H _]; discriminate]. }
  destruct (dev_extensions d) as [props|].
  - rewrite forallb_forall.
    assert (Hin : forall ext, existsb (Nat.eqb ext) props = true <-> In ext props).
    { intros ext. rewrite existsb_exists. split.
      - intros [y [Hy E]]. apply Nat.eqb_eq in E. subst. exact Hy.
      - intros Hy. exists ext. split; [exact Hy|apply Nat.eqb_refl]. }
    split.
    + intros [Hx [Hg Hp]]. split; [reflexivity|]. split; [|split; assumption].
      exists props. split; [reflexivity|]. intros ext He. apply Hin, Hx, He.
    + intros [_ [[props' [Hs Hx]] [Hg Hp]]]. injection Hs as <-.
      split; [|split; assumption]. intros ext He. apply Hin, Hx, He.
  - split; [intros [H _]; discriminate|intros [_ [[props' [H _]] _]]; discriminate].
Qed.




Lemma find_some_split {A} (p : A -> bool) (l : list A) (x : A) :
  find p l = Some x ->
  p x = true /\ exists pre post, l = pre ++ x :: post /\ forall y, In y pre -> p y = false.
Proof.
  induction l as [|y l IH]; cbn; [discriminate|].
  destruct (p y) eqn:E.
  - intros H. injection H as <-. split; [exact E|]. exists [], l. split; [reflexivity|]. intros z [].
  - intros H. destruct (IH H) as [Hx (pre & post & -> & Hpre)]. split; [exact Hx|].
    exists (y :: pre), post. split; [reflexivity|]. intros z [<-|Hz]; auto.
Qed.

Lemma find_none_all {A} (p : A -> bool) (l : list A) :
  find p l = None <-> forall y, In y l -> p y = false.
Proof.
  induction l as [|y l IH]; cbn; [split; [intros _ z []|reflexivity]|].
  destruct (p y) eqn:E; split.
  - discriminate.
  - intros H. rewrite H in E; auto. discriminate.
  - intros H z [<-|Hz]; [exact E|]. apply IH; auto.
  - intros H. apply IH. intros z Hz. apply H. auto.
Qed.

(** [get_depth_format] fails for a tiling other than linear or optimal,
    fails exactly when no candidate supports depth-stencil attachments,
    and otherwise returns the first supported candidate in the order
    D32, D32S8, D24S8. *)
Lemma get_depth_format_select (props : Format -> FormatProperties) (tiling : ImageTiling) :
  (forall n, tiling = OtherTiling n -> get_depth_format props tiling = inl NoDepthFormat) /\
  (get_depth_format props tiling = inl NoDepthFormat <->
     forall f, In f possible_formats -> depth_supported props tiling f = false) /\
  (forall f, get_depth_format props tiling = inr f ->
     depth_supported props tiling f = true /\
     exists pre post, possible_formats = pre ++ f :: post /\
       forall g, In g pre -> depth_supported props tiling g = false).
Proof.
  unfold get_depth_format. split; [|split].
  - intros n ->. reflexivity.
  - rewrite <- find_none_all. destruct (find _ _); split; congruence.
  - intros f. destruct (find _ _) eqn:E; [|discriminate].
    intros H. injection H as <-. apply find_some_split, E.
Qed.

Lemma create_swapchain_shape (caps : SurfaceCaps) (queue_families : list N) (image_format : Format)
    (resolution : N * N) (modes : list PresentMode) (create_ok : bool)
    (info : SwapchainCreateInfo) (extent : Extent2D) :
  create_swapchain (Some caps) queue_families image_format resolution (Some modes) create_ok
    = Some (inr (info, extent)) ->
  sci_image_extent info = extent /\
  extent = (if N.eqb (height (current_extent caps)) SwapchainInit.U32_MAX
            then mkExtent (fst resolution) (snd resolution) else current_extent caps) /\
  SwapchainInit.image_count (image_counts caps) = Some (sci_min_image_count info) /\
  sci_queue_family_indices info = queue_families /\
  (sci_sharing_mode info = EXCLUSIVE <->
     exists q, nth_error queue_families 0 = Some q /\ nth_error queue_families 1 = Some q) /\
  sci_present_mode info = (if existsb is_mailbox modes then MAILBOX else FIFO).
Proof.
  assert (Hm : get_present_mode (Some modes) = inr (if existsb is_mailbox modes then MAILBOX else FIFO)).
  { unfold get_present_mode. clear.
    induction modes as [|m rest IH]; cbn [find existsb]; [reflexivity|].
    destruct m; cbn [is_mailbox orb]; assumption || reflexivity. }
  unfold create_swapchain. rewrite Hm.
  destruct (SwapchainInit.image_count (image_counts caps)) as [count|]; cbn [obind]; [|discriminate].
  destruct (nth_error queue_families 0) as [q0|]; cbn [obind]; [|discriminate].
  destruct (nth_error queue_families 1) as [q1|]; cbn [obind]; [|discriminate].
  destruct create_ok; [|discriminate].
  intros H. injection H as <- <-. cbn.
  repeat split; try reflexivity.
  - destruct (N.eqb_spec q0 q1); [subst; eauto|discriminate].
  - intros (q & Hq0 & Hq1). injection Hq0 as ->. injection Hq1 as ->.
    rewrite N.eqb_refl. reflexivity.
Qed.


Lemma insert_sorted_in (x : N) (l : list N) (y : N) :
  In y (insert_sorted x l) <-> y = x \/ In y l.
Proof.
  induction l as [|z l IH]; cbn [insert_sorted].
  - cbn. intuition.
  - destruct (x <=? z)%N; cbn; rewrite ?IH; intuition.
Qed.

Lemma insert_sorted_sorted (x : N) (l : list N) :
  Sorted N.le l -> Sorted N.le (insert_sorted x l).
Proof.
  induction 1 as [|z l Hl IH Hhd]; cbn [insert_sorted].
  - repeat constructor.
  - destruct (N.leb_spec x z).
    + constructor; [constructor; assumption|constructor; assumption].
    + constructor; [exact IH|].
      destruct l as [|w l]; cbn [insert_sorted].
      * constructor. lia.
      * inversion Hhd; subst. destruct (x <=? w)%N; constructor; lia.
Qed.

Lemma sort_u32_spec (l : list N) :
  Sorted N.le (sort_u32 l) /\ forall y, In y (sort_u32 l) <-> In y l.
Proof.
  induction l as [|x l [IHs IHi]]; cbn [sort_u32].
  - split; [constructor|reflexivity].
  - split; [apply insert_sorted_sorted, IHs|].
    intros y. rewrite insert_sorted_in, IHi. cbn. intuition.
Qed.

Lemma dedup_spec (l : list N) :
  Sorted N.le l ->
  Sorted N.lt (dedup l) /\ (forall y, In y (dedup l) <-> In y l) /\
  (forall h, HdRel N.le h l -> HdRel N.le h (dedup l)).
Proof.
  induction l as [|x l IH]; intros Hs.
  - split; [constructor|split; [reflexivity|auto]].
  - inversion Hs as [|? ? Hl Hhd]; subst.
    destruct (IH Hl) as [IHs [IHi IHh]].
    destruct l as [|z l].
    + cbn [dedup]. split; [repeat constructor|split; [reflexivity|]].
      intros h Hh. exact Hh.
    + change (dedup (x :: z :: l)) with (if N.eqb x z then dedup (z :: l) else x :: dedup (z :: l)).
      inversion Hhd; subst. destruct (N.eqb_spec x z).
      * subst. split; [exact IHs|split].
        -- intros y. rewrite IHi. cbn. intuition.
        -- intros h Hh. inversion Hh; subst. apply IHh. constructor. assumption.
      * split; [|split].
        -- constructor; [exact IHs|].
           assert (Hz : HdRel N.le z (z :: l)) by (constructor; lia).
           specialize (IHh z Hz).
           assert (Hw : forall w d, dedup (z :: l) = w :: d -> In w (z :: l))
             by (intros w d Ed; apply IHi; rewrite Ed; left; reflexivity).
           revert IHh Hw. generalize (dedup (z :: l)). intros [|w d] IHh Hw; constructor.
           specialize (Hw w d eq_refl). inversion IHh; subst.
           assert (Hall : forall v, In v (z :: l) -> (z <= v)%N).
           { apply Sorted_extends in Hl; [|intros a b c; lia].
             intros v [<-|Hv]; [lia|]. rewrite Forall_forall in Hl. apply Hl, Hv. }
           pose proof (Hall w Hw). lia.
        -- intros y. cbn. rewrite IHi. cbn. intuition.
        -- intros h Hh. inversion Hh; subst. constructor. assumption.
Qed.

(** The queue families [create_device] requests are sorted, free of
    duplicates, and exactly the families given. *)
Lemma queue_create_families_spec (queue_families : list N) :
  StronglySorted N.lt (queue_create_families queue_families) /\
  forall q, In q (queue_create_families queue_families) <-> In q queue_families.
Proof.
  unfold queue_create_families.
  destruct (sort_u32_spec queue_families) as [Hs Hi].
  destruct (dedup_spec _ Hs) as [Hd [Hdi _]].
  split.
  - apply Sorted_StronglySorted; [intros a b c; lia|exact Hd].
  - intros q. rewrite Hdi, Hi. reflexivity.
Qed.

(** When the first family that can present also supports graphics, both
    queues get its index, [create_device] asks for a single queue family,
    and any swapchain built on that pair uses exclusive sharing. *)
Theorem shared_queue_family (pre post : list QueueFamily) (f : QueueFamily) :
  (forall x, In x pre -> qf_present x = false) ->
  qf_graphics f = true -> qf_present f = true ->
  let q := N.of_nat (length pre) in
  get_queue_families (pre ++ f :: post) = inr (length pre, length pre) /\
  queue_create_families [q; q] = [q] /\
  (forall caps image_format resolution modes create_ok info extent,
     create_swapchain (Some caps) [q; q] image_format resolution (Some modes) create_ok
       = Some (inr (info, extent)) ->
     sci_sharing_mode info = EXCLUSIVE).
Proof.
  intros Hpre Hg Hp q. split; [apply get_queue_families_shared; assumption|]. split.
  - unfold queue_create_families. cbn. rewrite N.leb_refl. cbn. rewrite N.eqb_refl. reflexivity.
  - intros caps image_format resolution modes create_ok info extent H.
    destruct (create_swapchain_shape _ _ _ _ _ _ _ _ H) as (_ & _ & _ & _ & [_ Hs] & _).
    apply Hs. exists q. split; reflexivity.
Qed.

Lemma shared_queue_family_witness :
  get_queue_families [mkQF true false; mkQF true true; mkQF false true] = inr (1, 1) /\
  queue_create_families [1%N; 1%N] = [1%N] /\
  (forall caps image_format resolution modes create_ok info extent,
     create_swapchain (Some caps) [1%N; 1%N] image_format resolution (Some modes) create_ok
       = Some (inr (info, extent)) ->
     sci_sharing_mode info = EXCLUSIVE).
Proof.
  apply (shared_queue_family [mkQF true false] [mkQF false true] (mkQF true true)).
  - intros x [<-|[]]. reflexivity.
  - reflexivity.
  - reflexivity.
Defined.

Lemma get_queue_families_indices_witness :
  get_queue_families [mkQF true false; mkQF false true] = inr (0, 1) /\
  (exists f, nth_error [mkQF true false; mkQF false true] 0 = Some f /\ qf_graphics f = true) /\
  (exists f, nth_error [mkQF true false; mkQF false true] 1 = Some f /\ qf_present f = true).
Proof.
  split; [reflexivity|]. apply get_queue_families_indices. reflexivity.
Defined.

Lemma get_depth_format_select_witness :
  get_depth_format (fun f => match f with
                             | D32_SFLOAT => mkFormatProps true false
                             | _ => mkFormatProps true true
                             end) OPTIMAL = inr D32_SFLOAT_S8_UINT /\
  depth_supported (fun f => match f with
                            | D32_SFLOAT => mkFormatProps true false
                            | _ => mkFormatProps true true
                            end) OPTIMAL D32_SFLOAT_S8_UINT = true /\
  exists pre post, possible_formats = pre ++ D32_SFLOAT_S8_UINT :: post /\
    forall g, In g pre -> depth_supported (fun f => match f with
                                                   | D32_SFLOAT => mkFormatProps true false
                                                   | _ => mkFormatProps true true
                                                   end) OPTIMAL g = false.
Proof.
  split; [reflexivity|].
  destruct (get_depth_format_select (fun f => match f with
                                              | D32_SFLOAT => mkFormatProps true false
                                              | _ => mkFormatProps true true
                                              end) OPTIMAL) as [_ [_ H]].
  apply H. reflexivity.
Defined.


End DeviceInitFacts.

(** ** Frames of a running engine *)

Section EngineRunFacts.
Import Engine EngineRun.

Lemma nth_error_set_nth {A} (i : nat) (x : A) (l : list A) (j : nat) :
  nth_error (set_nth i x l) j =
  if Nat.eqb j i then (if i <? length l then Some x else None) else nth_error l j.
Proof.
  revert i j; induction l as [|h t IH]; intros i j.
  - destruct i, j; cbn; try destruct (_ =? _); reflexivity.
  - destruct i as [|i], j as [|j]; cbn [set_nth nth_error length]; try reflexivity.
    + rewrite IH. cbn [Nat.eqb]. destruct (j =? i); [|reflexivity].
      destruct (i <? length t) eqn:E1, (S i <? S (length t)) eqn:E2; try reflexivity;
        apply Nat.ltb_lt in E1 || apply Nat.ltb_ge in E1;
        apply Nat.ltb_lt in E2 || apply Nat.ltb_ge in E2; lia.
Qed.

Lemma nth_error_set_nth_same {A} (i : nat) (x y : A) (l : list A) :
  nth_error l i = Some y -> nth_error (set_nth i x l) i = Some x.
Proof.
  intros H. rewrite nth_error_set_nth, Nat.eqb_refl.
  assert (i < length l) by (apply nth_error_Some; congruence).
  destruct (Nat.ltb_spec i (length l)); [reflexivity|lia].
Qed.

Lemma nth_error_set_nth_other {A} (i : nat) (x : A) (l : list A) (j : nat) :
  j <> i -> nth_error (set_nth i x l) j = nth_error l j.
Proof.
  intros H. rewrite nth_error_set_nth. destruct (Nat.eqb_spec j i); [lia|reflexivity].
Qed.

Lemma begin_go_notdone fuel acq e :
  nth_error (sync_data e) (frame_count e mod FRAMES_IN_FLIGHT) = Some NotDone ->
  begin_rendering_go fuel acq e = None.
Proof. intros H. destruct fuel; cbn [begin_rendering_go]; [reflexivity|]. rewrite H. reflexivity. Qed.

(** A begin on a slot whose flag is [Ok]. *)
Lemma begin_go_rok fuel acq e e' :
  nth_error (sync_data e) (frame_count e mod FRAMES_IN_FLIGHT) = Some ROk ->
  begin_rendering_go fuel acq e = Some e' ->
  exists idx rest, acq = AcquireOk idx false :: rest /\
    e' = with_channels (send_each (begin_message (frame_count e mod FRAMES_IN_FLIGHT))
                                  (render_channels e))
           (with_image_index idx
              (with_sync (set_nth (frame_count e mod FRAMES_IN_FLIGHT) NotDone (sync_data e)) e)).
Proof.
  intros Hs H. destruct fuel as [|fuel]; cbn [begin_rendering_go] in H; [discriminate|].
  rewrite Hs in H. cbn [RenderResult_eqb] in H.
  set (e1 := with_sync (set_nth (frame_count e mod FRAMES_IN_FLIGHT) NotDone (sync_data e)) e) in H.
  assert (Hn : forall e2, frame_count e2 = frame_count e -> sync_data e2 = sync_data e1 ->
                 forall f a, begin_rendering_go f a e2 = None).
  { intros e2 Hf Hsy f a. apply begin_go_notdone. rewrite Hf, Hsy. unfold e1. cbn.
    eapply nth_error_set_nth_same. exact Hs. }
  destruct acq as [|[idx [|]|[| |]] rest]; try discriminate.
  - rewrite Hn in H; [discriminate|reflexivity|reflexivity].
  - injection H as <-. exists idx, rest. split; reflexivity.
  - rewrite Hn in H; [discriminate|reflexivity|reflexivity].
  - rewrite Hn in H; [discriminate|reflexivity|reflexivity].
Qed.

Lemma begin_rendering_go_ok fuel acq e e' :
  begin_rendering_go fuel acq e = Some e' ->
  let slot := frame_count e mod FRAMES_IN_FLIGHT in
  exists r idx rest,
    nth_error (sync_data e) slot = Some r /\ r <> NotDone /\
    acq = AcquireOk idx false :: rest /\
    current_image_index e' = idx /\
    swapchain_generation e' = swapchain_generation e + (if RenderResult_eqb r OutOfDate then 1 else 0) /\
    nth_error (sync_data e') slot = Some NotDone /\
    (forall j, j <> slot -> nth_error (sync_data e') j = nth_error (sync_data e) j) /\
    frame_count e' = frame_count e /\
    present_channel e' = present_channel e /\
    render_channels e' = send_each (begin_message slot) (render_channels e) /\
    batching_state e' = batching_state e.
Proof.
  intros H slot.
  destruct (nth_error (sync_data e) slot) as [r|] eqn:Hs.
  2: { destruct fuel; cbn [begin_rendering_go] in H; [discriminate|]. fold slot in H.
       rewrite Hs in H. discriminate. }
  destruct r.
  - rewrite begin_go_notdone in H by exact Hs. discriminate.
  - destruct (begin_go_rok _ _ _ _ Hs H) as [idx [rest [-> ->]]].
    exists ROk, idx, rest. cbn. fold slot.
    repeat split; try reflexivity; try discriminate; try lia.
    + eapply nth_error_set_nth_same. exact Hs.
    + intros j Hj. apply nth_error_set_nth_other. exact Hj.
  - destruct fuel as [|fuel]; cbn [begin_rendering_go] in H; [discriminate|]. fold slot in H.
    rewrite Hs in H. cbn [RenderResult_eqb] in H.
    set (e1 := recreate_swapchain (with_sync (set_nth slot ROk (sync_data e)) e)) in H.
    assert (Hs1 : nth_error (sync_data e1) (frame_count e1 mod FRAMES_IN_FLIGHT) = Some ROk).
    { unfold e1. cbn. fold slot. eapply nth_error_set_nth_same. exact Hs. }
    destruct (begin_go_rok _ _ _ _ Hs1 H) as [idx [rest [-> ->]]].
    exists OutOfDate, idx, rest. unfold e1. cbn. fold slot.
    repeat split; try reflexivity; try discriminate; try lia.
    + eapply nth_error_set_nth_same. eapply nth_error_set_nth_same. exact Hs.
    + intros j Hj. rewrite !nth_error_set_nth_other by exact Hj. reflexivity.
Qed.

Lemma begin_rendering_go_total fuel acq e r idx rest :
  2 <= fuel ->
  nth_error (sync_data e) (frame_count e mod FRAMES_IN_FLIGHT) = Some r -> r <> NotDone ->
  acq = AcquireOk idx false :: rest ->
  exists e', begin_rendering_go fuel acq e = Some e'.
Proof.
  intros Hf Hs Hr ->. destruct fuel as [|[|fuel]]; [lia|lia|].
  cbn [begin_rendering_go]. rewrite Hs.
  destruct r; [congruence|cbn; eauto|].
  cbn [RenderResult_eqb]. cbn [begin_rendering_go]. cbn [frame_count recreate_swapchain with_sync sync_data].
  erewrite nth_error_set_nth_same by exact Hs. cbn. eauto.
Qed.

Lemma render_keeps m mt t e e' :
  render m mt t e = Some e' ->
  present_channel e' = present_channel e /\ sync_data e' = sync_data e /\
  current_image_index e' = current_image_index e /\
  swapchain_generation e' = swapchain_generation e.
Proof.
  unfold render.
  destruct (negb _).
  - destruct (Nat.eqb _ 0); [discriminate|]. cbn [obind].
    destruct (nth_error _ _); [|discriminate]. intros H; injection H as <-. cbn. auto.
  - cbn [obind]. destruct (nth_error _ _); [|discriminate]. intros H; injection H as <-. cbn. auto.
Qed.

Lemma render_all_keeps draws e e' :
  render_all draws e = Some e' ->
  present_channel e' = present_channel e /\ sync_data e' = sync_data e /\
  current_image_index e' = current_image_index e /\
  swapchain_generation e' = swapchain_generation e.
Proof.
  revert e; induction draws as [|[[m mt] t] rest IH]; intros e H; cbn [render_all] in H.
  - injection H as <-. auto.
  - destruct (render m mt t e) as [e1|] eqn:He; [|discriminate]. cbn [obind] in H.
    destruct (render_keeps _ _ _ _ _ He) as (H1 & H2 & H3 & H4).
    destruct (IH _ H) as (H5 & H6 & H7 & H8). repeat split; congruence.
Qed.

(** [begin_rendering] completes exactly when the flag of the current slot
    is not [NotDone] and the next acquire returns an optimal image.  On
    success it records that image index, bumps the swapchain generation
    when the flag was [OutOfDate], marks the slot [NotDone], and leaves the
    other slots unchanged. *)
Theorem begin_rendering_outcome acq e :
  let slot := frame_count e mod FRAMES_IN_FLIGHT in
  (begin_rendering acq e <> None <->
     exists r idx rest, nth_error (sync_data e) slot = Some r /\ r <> NotDone /\
       acq = AcquireOk idx false :: rest) /\
  (forall e', begin_rendering acq e = Some e' ->
     exists r idx rest, nth_error (sync_data e) slot = Some r /\
       acq = AcquireOk idx false :: rest /\
       current_image_index e' = idx /\
       swapchain_generation e' =
         swapchain_generation e + (if RenderResult_eqb r OutOfDate then 1 else 0) /\
       nth_error (sync_data e') slot = Some NotDone /\
       (forall j, j <> slot -> nth_error (sync_data e') j = nth_error (sync_data e) j)).
Proof.
  cbv zeta. split.
  - split.
    + intros H. destruct (begin_rendering acq e) as [e'|] eqn:E; [|congruence].
      destruct (begin_rendering_go_ok _ _ _ _ E) as (r & idx & rest & H1 & H2 & H3 & _).
      exists r, idx, rest. auto.
    + intros (r & idx & rest & H1 & H2 & H3).
      destruct (begin_rendering_go_total (3 + 2 * length acq) acq e r idx rest) as [e' He];
        [lia|exact H1|exact H2|exact H3|].
      unfold begin_rendering. rewrite He. discriminate.
  - intros e' H.
    destruct (begin_rendering_go_ok _ _ _ _ H) as (r & idx & rest & H1 & _ & H3 & H4 & H5 & H6 & H7 & _).
    exists r, idx, rest. repeat split; assumption.
Qed.

(** With the slot flag [Ok], an acquire that reports a suboptimal or
    out-of-date swapchain rebuilds the swapchain, marks the slot
    [NotDone], and retries; the retry waits on that flag, so
    [begin_rendering] never returns. *)
Theorem begin_rendering_rebuild_waits acq e a rest
  (Hflag : nth_error (sync_data e) (frame_count e mod FRAMES_IN_FLIGHT) = Some ROk)
  (Hacq : acq = a :: rest)
  (Ha : requests_rebuild a = true) :
  exists e2,
    begin_rendering acq e = begin_rendering_go (2 + 2 * length acq) rest e2 /\
    swapchain_generation e2 = S (swapchain_generation e) /\
    frame_count e2 = frame_count e /\
    nth_error (sync_data e2) (frame_count e2 mod FRAMES_IN_FLIGHT) = Some NotDone /\
    begin_rendering acq e = None.
Proof.
  set (e1 := with_sync (set_nth (frame_count e mod FRAMES_IN_FLIGHT) NotDone (sync_data e)) e).
  assert (Hs1 : nth_error (sync_data e1) (frame_count e mod FRAMES_IN_FLIGHT) = Some NotDone).
  { unfold e1. cbn. eapply nth_error_set_nth_same. exact Hflag. }
  assert (Hgo : exists e2, begin_rendering acq e = begin_rendering_go (2 + 2 * length acq) rest e2 /\
                 swapchain_generation e2 = S (swapchain_generation e) /\
                 frame_count e2 = frame_count e /\ sync_data e2 = sync_data e1).
  { subst acq. unfold begin_rendering.
    replace (3 + 2 * length (a :: rest)) with (S (2 + 2 * length (a :: rest))) by reflexivity.
    cbn [begin_rendering_go]. rewrite Hflag. cbn [RenderResult_eqb]. fold e1.
    destruct a as [idx [|]|[| |]]; cbn in Ha; try discriminate.
    - exists (recreate_swapchain (with_image_index idx e1)). repeat split.
    - exists (recreate_swapchain e1). repeat split.
    - exists (recreate_swapchain e1). repeat split. }
  destruct Hgo as (e2 & H1 & H2 & H3 & H4).
  assert (Hs2 : nth_error (sync_data e2) (frame_count e2 mod FRAMES_IN_FLIGHT) = Some NotDone)
    by (rewrite H3, H4; exact Hs1).
  exists e2. repeat split; try assumption.
  rewrite H1. apply begin_go_notdone. exact Hs2.
Qed.

Lemma begin_rendering_rebuild_waits_witness :
  nth_error (sync_data (engine_new 2 ROk)) 0 = Some ROk /\
  exists e2,
    begin_rendering [AcquireOk 0 true] (engine_new 2 ROk) =
      begin_rendering_go (2 + 2 * 1) [] e2 /\
    swapchain_generation e2 = 1 /\ frame_count e2 = 0 /\
    nth_error (sync_data e2) (frame_count e2 mod FRAMES_IN_FLIGHT) = Some NotDone /\
    begin_rendering [AcquireOk 0 true] (engine_new 2 ROk) = None.
Proof.
  split; [reflexivity|].
  apply (begin_rendering_rebuild_waits [AcquireOk 0 true] (engine_new 2 ROk) (AcquireOk 0 true) []);
    reflexivity.
Defined.

(** A completed frame consumed an optimal acquire, sent one presentation
    request for its slot and image index, advanced the frame count by one,
    and left its slot [NotDone] and the other slots unchanged. *)
Theorem run_frame_presents acq draws e e' :
  run_frame acq draws e = Some e' ->
  let slot := frame_count e mod FRAMES_IN_FLIGHT in
  exists idx rest,
    acq = AcquireOk idx false :: rest /\
    present_channel e' = present_channel e ++ [mkPD slot idx] /\
    frame_count e' = frame_count e + 1 /\
    nth_error (sync_data e') slot = Some NotDone /\
    (forall j, j <> slot -> nth_error (sync_data e') j = nth_error (sync_data e) j).
Proof.
  intros H slot. unfold run_frame in H.
  destruct (begin_rendering acq e) as [e1|] eqn:Hb; [|discriminate]. cbn [obind] in H.
  destruct (render_all draws e1) as [e2|] eqn:Hr; [|discriminate]. cbn [obind] in H.
  injection H as <-.
  destruct (begin_rendering_go_ok _ _ _ _ Hb)
    as (r & idx & rest & _ & _ & Hacq & Hidx & _ & Hnd & Hoth & Hfc & Hpc & _).
  destruct (render_all_keeps _ _ _ Hr) as (K1 & K2 & K3 & _).
  pose proof (render_all_frame_count _ _ _ Hr) as K4.
  exists idx, rest. unfold end_rendering. cbn [present_channel frame_count sync_data].
  rewrite K1, K2, K3, K4, Hpc, Hfc, Hidx. fold slot.
  repeat split; auto.
Qed.

Lemma run_frame_presents_witness :
  exists e', run_frame [AcquireOk 1 false] [(mkMesh 1 36, mkMaterial 2, 0)] (engine_new 2 ROk) = Some e' /\
  exists idx rest,
    [AcquireOk 1 false] = AcquireOk idx false :: rest /\
    present_channel e' = present_channel (engine_new 2 ROk) ++ [mkPD 0 idx] /\
    frame_count e' = 0 + 1 /\
    nth_error (sync_data e') 0 = Some NotDone /\
    (forall j, j <> 0 -> nth_error (sync_data e') j = nth_error (sync_data (engine_new 2 ROk)) j).
Proof.
  eexists. split; [reflexivity|].
  apply (run_frame_presents [AcquireOk 1 false] [(mkMesh 1 36, mkMaterial 2, 0)] (engine_new 2 ROk)).
  reflexivity.
Defined.





Lemma render_step_draws w c w' :
  render_thread_step w c = Some w' ->
  draw_calls (w_calls w') = draw_calls (w_calls w) + (if is_render_msg c then 1 else 0).
Proof.
  unfold draw_calls.
  destruct c as [cb d|m mt t|]; cbn [render_thread_step is_render_msg].
  - intros H; injection H as <-. cbn [w_calls]. rewrite filter_app, length_app. cbn. lia.
  - destruct (w_cmd w) as [cmd|]; [|discriminate]. unfold cull_test.
    destruct (negb (ptr_eq (mesh_addr m) (w_last_mesh w)));
    destruct (negb (ptr_eq (material_addr mt) (w_last_material w)));
      intros H; injection H as <-; cbn [w_calls];
      rewrite ?filter_app, ?length_app; cbn; lia.
  - destruct (w_cmd w) as [cmd|]; [|discriminate].
    intros H; injection H as <-. cbn [w_calls]. rewrite filter_app, length_app. cbn. lia.
Qed.

Lemma run_worker_draws log w w' :
  run_worker log w = Some w' ->
  draw_calls (w_calls w') = draw_calls (w_calls w) + render_msgs log.
Proof.
  revert w; induction log as [|c log IH]; intros w H; cbn [run_worker] in H.
  - injection H as <-. unfold render_msgs. cbn. lia.
  - destruct (render_thread_step w c) as [w1|] eqn:E; [|discriminate]. cbn [obind] in H.
    rewrite (IH _ H), (render_step_draws _ _ _ E).
    unfold render_msgs. cbn [filter]. destruct (is_render_msg c); cbn [length]; lia.
Qed.

Lemma total_draw_calls_sum chs :
  Forall (fun log => exists w, worker_of log = Some w) chs ->
  total_draw_calls chs = Some (list_sum (map render_msgs chs)).
Proof.
  induction 1 as [|log chs [w Hw] _ IH]; [reflexivity|].
  cbn [total_draw_calls map list_sum fold_right]. rewrite Hw. cbn [obind]. rewrite IH. cbn [obind].
  unfold worker_of in Hw. apply run_worker_draws in Hw. rewrite Hw. reflexivity.
Qed.

Lemma render_msgs_app l1 l2 : render_msgs (l1 ++ l2) = render_msgs l1 + render_msgs l2.
Proof. unfold render_msgs. rewrite filter_app, length_app. reflexivity. Qed.

Lemma sum_send_at i x chs :
  i < length chs ->
  list_sum (map render_msgs (send_at i x chs)) =
  list_sum (map render_msgs chs) + (if is_render_msg x then 1 else 0).
Proof.
  revert i; induction chs as [|c chs IH]; intros i Hi; cbn [length] in Hi; [lia|].
  destruct i as [|i]; cbn [send_at map list_sum fold_right].
  - rewrite render_msgs_app. unfold render_msgs at 2. cbn. destruct (is_render_msg x); cbn; lia.
  - fold (list_sum (map render_msgs (send_at i x chs))). fold (list_sum (map render_msgs chs)).
    rewrite IH by lia. lia.
Qed.

Lemma sum_send_each_from k f chs :
  (forall n, is_render_msg (f n) = false) ->
  list_sum (map render_msgs (send_each_from k f chs)) = list_sum (map render_msgs chs).
Proof.
  intros Hf. revert k; induction chs as [|c chs IH]; intros k; [reflexivity|].
  cbn [send_each_from map list_sum fold_right].
  fold (list_sum (map render_msgs (send_each_from (S k) f chs))). fold (list_sum (map render_msgs chs)).
  rewrite IH, render_msgs_app. unfold render_msgs at 2. cbn. rewrite Hf. cbn. lia.
Qed.

Lemma render_all_msgs draws e e' :
  render_all draws e = Some e' ->
  list_sum (map render_msgs (render_channels e')) =
  list_sum (map render_msgs (render_channels e)) + length draws.
Proof.
  revert e; induction draws as [|[[m mt] t] rest IH]; intros e H; cbn [render_all] in H.
  - injection H as <-. cbn. lia.
  - destruct (render m mt t e) as [e1|] eqn:He; [|discriminate]. cbn [obind] in H.
    destruct (render_shape _ _ _ _ _ He) as [Hlt [Hch _]].
    rewrite (IH _ H), Hch, sum_send_at by exact Hlt. cbn. lia.
Qed.

(** Starting from idle render threads, a frame adds exactly one indexed
    draw per submitted draw to the commands recorded by the threads. *)
Theorem run_frame_draw_calls acq draws e e' :
  quiescent e ->
  run_frame acq draws e = Some e' ->
  exists k, total_draw_calls (render_channels e) = Some k /\
            total_draw_calls (render_channels e') = Some (k + length draws).
Proof.
  intros Hq H.
  pose proof (quiescent_run_frame _ _ _ _ Hq H) as Hq'.
  assert (Hrun : forall e0, quiescent e0 -> Forall (fun log => exists w, worker_of log = Some w) (render_channels e0)).
  { intros e0 Hq0. eapply Forall_impl; [|exact Hq0]. intros log [w [Hw _]]. eauto. }
  exists (list_sum (map render_msgs (render_channels e))).
  rewrite !total_draw_calls_sum by (apply Hrun; assumption).
  split; [reflexivity|]. f_equal.
  unfold run_frame in H.
  destruct (begin_rendering acq e) as [e1|] eqn:Hb; [|discriminate]. cbn [obind] in H.
  destruct (render_all draws e1) as [e2|] eqn:Hr; [|discriminate]. cbn [obind] in H.
  injection H as <-.
  destruct (begin_rendering_go_ok _ _ _ _ Hb) as (_ & _ & _ & _ & _ & _ & _ & _ & _ & _ & _ & _ & Hch & _).
  unfold end_rendering. cbn [render_channels]. unfold send_each.
  rewrite sum_send_each_from by reflexivity.
  rewrite (render_all_msgs _ _ _ Hr), Hch. unfold send_each.
  rewrite sum_send_each_from by reflexivity. reflexivity.
Qed.

Lemma run_frame_draw_calls_witness :
  quiescent (engine_new 2 ROk) /\
  exists e', run_frame [AcquireOk 0 false]
               [(mkMesh 1 36, mkMaterial 2, 0); (mkMesh 3 6, mkMaterial 2, 0)] (engine_new 2 ROk) = Some e' /\
  exists k, total_draw_calls (render_channels (engine_new 2 ROk)) = Some k /\
            total_draw_calls (render_channels e') = Some (k + 2).
Proof.
  split; [apply quiescent_engine_new|]. eexists. split; [reflexivity|].
  apply (run_frame_draw_calls [AcquireOk 0 false]
           [(mkMesh 1 36, mkMaterial 2, 0); (mkMesh 3 6, mkMaterial 2, 0)]);
    [apply quiescent_engine_new|reflexivity].
Defined.



End EngineRunFacts.

(** ** Teardown order, pipeline creation and material loading *)

Section TeardownOrder.
Import Teardown TeardownTrace.

Lemma join_render_threads_exact k s :
  join_render_threads k s =
  mkDS (alloc_refs s) (trace s ++ map JoinRenderThread (rev (seq 0 k))).
Proof.
  revert s; induction k as [|k IH]; intro s; cbn [join_render_threads].
  - destruct s; cbn. rewrite app_nil_r. reflexivity.
  - rewrite IH. cbn [emit trace alloc_refs]. rewrite seq_S, rev_app_distr. cbn [rev app map].
    rewrite <- app_assoc. reflexivity.
Qed.


Lemma drop_engine_trace threads external :
  trace (drop_engine threads external) =
  [DeviceWaitIdle; JoinPresentThread] ++ map JoinRenderThread (rev (seq 0 threads)) ++
  teardown_middle ++
  (if Nat.eqb external 0
   then [DestroyAllocator; CleanupCache; DestroyDevice; DestroySurface; DestroyInstance]
   else [LogAllocatorLeak; Panic]).
Proof.
  unfold drop_engine. rewrite join_render_threads_exact. unfold Engine.FRAMES_IN_FLIGHT.
  cbn [drop_frames]. unfold emit, drop_backed. cbn [trace alloc_refs].
  destruct external as [|ext]; cbn [Nat.add Nat.sub Nat.eqb trace];
    unfold teardown_middle; rewrite <- !app_assoc; reflexivity.
Qed.

(** Dropping the engine waits for the device, joins the presentation
    thread, then joins the render threads in reverse order before
    destroying anything.  With no outside reference to the allocator it
    ends by destroying the allocator, the pipeline cache, the device, the
    surface and the instance; otherwise none of these four is destroyed. *)
Theorem drop_engine_join_order threads external :
  let t := trace (drop_engine threads external) in
  (exists rest, t = [DeviceWaitIdle; JoinPresentThread] ++
                    map JoinRenderThread (rev (seq 0 threads)) ++ DestroyUtilityPool :: rest) /\
  (external = 0 ->
     exists pre, t = pre ++ [DestroyAllocator; CleanupCache; DestroyDevice;
                             DestroySurface; DestroyInstance]) /\
  (external <> 0 ->
     ~ In CleanupCache t /\ ~ In DestroyDevice t /\ ~ In DestroySurface t /\
     ~ In DestroyInstance t).
Proof.
  cbv zeta. rewrite drop_engine_trace.
  set (js := map JoinRenderThread (rev (seq 0 threads))).
  assert (Hjs : forall ev, In ev js -> exists j, ev = JoinRenderThread j).
  { intros ev H. unfold js in H. apply in_map_iff in H. destruct H as [j [<- _]]. eauto. }
  split; [|split].
  - eexists. unfold teardown_middle. cbn [app]. reflexivity.
  - intros ->. cbn [Nat.eqb]. eexists. rewrite !app_assoc. reflexivity.
  - intros Hne. destruct (Nat.eqb_spec external 0) as [He|_]; [contradiction|].
    assert (Hnot : forall ev, (forall j, ev <> JoinRenderThread j) ->
                   ~ In ev [DeviceWaitIdle; JoinPresentThread] -> ~ In ev teardown_middle ->
                   ~ In ev [LogAllocatorLeak; Panic] ->
                   ~ In ev ([DeviceWaitIdle; JoinPresentThread] ++ js ++ teardown_middle ++
                            [LogAllocatorLeak; Panic])).
    { intros ev Hj H1 H2 H3 H. rewrite !in_app_iff in H.
      destruct H as [H|[H|[H|H]]]; try contradiction.
      apply Hjs in H. destruct H as [j Hj']. exact (Hj j Hj'). }
    repeat split; apply Hnot; try (intros j; discriminate);
      cbn; intros H; repeat (destruct H as [H|H]; [discriminate|]); exact H.
Qed.

Lemma drop_engine_join_order_witness :
  trace (drop_engine 3 0) =
    [DeviceWaitIdle; JoinPresentThread; JoinRenderThread 2; JoinRenderThread 1;
     JoinRenderThread 0] ++ teardown_middle ++
    [DestroyAllocator; CleanupCache; DestroyDevice; DestroySurface; DestroyInstance] /\
  exists pre, trace (drop_engine 3 0) =
    pre ++ [DestroyAllocator; CleanupCache; DestroyDevice; DestroySurface; DestroyInstance].
Proof.
  split; [reflexivity|].
  destruct (drop_engine_join_order 3 0) as [_ [H _]]. apply H. reflexivity.
Defined.

End TeardownOrder.

Section PipelineModules.
Import PipelineBuild.







End PipelineModules.

Section CacheOverCalls.
Import PipelineCache CacheLifetime.

Lemma create_pipelines_some envs c : create_pipelines envs (Some c) = Some c.
Proof.
  induction envs as [|env rest IH]; [reflexivity|].
  cbn [create_pipelines]. unfold create_pipeline. destruct (negb (shaders_ok env)); [exact IH|].
  cbn [get_or_try_init]. destruct (pipelines_ok env); exact IH.
Qed.

(** Over successive [create_pipeline] calls the cache is loaded by the
    first call whose shaders load and whose cache creation succeeds, and
    never reloaded; [cleanup_cache] destroys it exactly when such a call
    happened. *)
Theorem cache_over_calls envs :
  create_pipelines envs None =
    option_map (fun env => mkCache (cache_file env)) (find initializes envs) /\
  (forall get_data write_ok,
     snd (cleanup_cache (create_pipelines envs None) get_data write_ok) =
       existsb initializes envs).
Proof.
  assert (H : create_pipelines envs None =
              option_map (fun env => mkCache (cache_file env)) (find initializes envs)).
  { induction envs as [|env rest IH]; [reflexivity|].
    cbn [create_pipelines find]. unfold initializes at 1.
    unfold create_pipeline, get_or_try_init, load_cache.
    destruct (shaders_ok env); cbn [negb andb]; [|exact IH].
    destruct (cache_file env) as [data|] eqn:Ecf, (create_cache_ok env); cbn [fst snd];
      try exact IH; destruct (pipelines_ok env); rewrite create_pipelines_some; cbn;
      rewrite Ecf; reflexivity. }
  split; [exact H|]. intros gd w. rewrite H.
  destruct (find initializes envs) eqn:E; cbn.
  - symmetry. apply existsb_exists. apply find_some in E. exists c. exact E.
  - symmetry. apply Bool.not_true_iff_false. intros Hx. apply existsb_exists in Hx.
    destruct Hx as [x [Hx Hi]]. pose proof (find_none _ _ E x Hx). congruence.
Qed.

End CacheOverCalls.

Section LoadMaterial.
Import Loading.

(** [load_material] succeeds exactly when the shader files are read, the
    pipeline is created and a command buffer is allocated.  On success the
    material's texture is that of [Texture::new], whose calls run between
    the allocation and the freeing of the command buffer; on failure no
    utility call is made. *)
Theorem load_material_texture_optional shaders_read env cell alloc_ok decoded tex_alloc_ok
    r cell' calls :
  load_material shaders_read env cell alloc_ok decoded tex_alloc_ok = (r, cell', calls) ->
  ((exists m, r = inr m) <->
     shaders_read = true /\ (exists c, fst (PipelineCache.create_pipeline env cell) = inr c) /\
     alloc_ok = true) /\
  (forall m, r = inr m ->
     mat_texture m = snd (Texture.texture_new decoded tex_alloc_ok) /\
     calls = AllocateCommandBuffer ::
               map TextureCall (fst (Texture.texture_new decoded tex_alloc_ok)) ++
               [FreeCommandBuffer]) /\
  (forall e, r = inl e -> calls = []).
Proof.
  unfold load_material. intros H.
  destruct shaders_read; cbn [negb] in H.
  2: { injection H as <- _ <-. split; [|split; [intros m Hm; discriminate|reflexivity]].
       split; [intros [m Hm]; discriminate|intros [Hx _]; discriminate]. }
  destruct (PipelineCache.create_pipeline env cell) as [[e|c] cell0] eqn:Ep; cbn [fst].
  - injection H as <- _ <-. split; [|split; [intros m Hm; discriminate|reflexivity]].
    split; [intros [m Hm]; discriminate|intros [_ [[c Hc] _]]; discriminate].
  - destruct alloc_ok; cbn [negb] in H.
    2: { injection H as <- _ <-. split; [|split; [intros m Hm; discriminate|reflexivity]].
         split; [intros [m Hm]; discriminate|intros [_ [_ Hx]]; discriminate]. }
    destruct (Texture.texture_new decoded tex_alloc_ok) as [tcalls tex] eqn:Et.
    injection H as <- _ <-. split; [|split].
    + split; [intros _; split; [reflexivity|split; [eauto|reflexivity]]|eauto].
    + intros m Hm. injection Hm as <-. split; reflexivity.
    + intros e He. discriminate.
Qed.

Lemma load_material_texture_optional_witness :
  exists r cell' calls,
    load_material true PipelineCache.env_all_ok None true None true = (r, cell', calls) /\
    r = inr (mkLoaded None) /\
    calls = [AllocateCommandBuffer; FreeCommandBuffer] /\
    ((exists m, r = inr m) <->
     true = true /\ (exists c, fst (PipelineCache.create_pipeline PipelineCache.env_all_ok None) = inr c) /\
     true = true).
Proof.
  do 3 eexists. split; [reflexivity|]. split; [reflexivity|]. split; [reflexivity|].
  apply (load_material_texture_optional true PipelineCache.env_all_ok None true None true
           (inr (mkLoaded None)) (Some (PipelineCache.mkCache None))
           [AllocateCommandBuffer; FreeCommandBuffer]).
  reflexivity.
Defined.

End LoadMaterial.
